(** * tlsprint: the identification engine of [tlsprint/identify.py]

    A shallow embedding of the selectors, the connectors, [descent] and
    [identify] of [identify.py], and of [count_inputs] and [count_resets] of
    [benchmark.py].

    - Python [int]s are [Z]; sets of model identifiers are [gset string];
      tuples of tokens (the nodes of the tree) are [list string].
    - A Python exception is the [Raise] case of [result]; the exception
      classes that these functions can raise are the constructors of [exn].
    - The connector is mutable state: it is threaded through [descent] and
      [identify].  The benchmark connector keeps a reference to the very tree
      that [identify] prunes, so its [send] reads the current tree.
    - The two [while] loops take fuel; claims about what a loop returns are
      stated for every sufficient amount of fuel.
    - Floating point: [x / total_weight] and the sums of the Gini selector
      are exact rationals ([Q]); the entropy selector needs [math.log] and
      lives in the real numbers ([R]). *)

From Stdlib Require Import ZArith QArith Reals Lra Lia.
From stdpp Require Import gmap strings list.

Local Open Scope string_scope.
Local Open Scope list_scope.

(** ** Python values *)

Definition token := string.
Definition model := string.
Definition implementation := (string * string)%type.

(** A node is the tuple of tokens on the path from the root; the root is
    [tuple()]. *)
Definition node := list token.

Inductive exn :=
| KeyError
| IndexError
| ValueError
| ZeroDivisionError
| TypeError
| RuntimeError
| OSError.

Inductive result (A : Type) :=
| Ok (a : A)
| Raise (e : exn).
Arguments Ok {A} a.
Arguments Raise {A} e.

Definition rbind {A B} (r : result A) (k : A → result B) : result B :=
  match r with
  | Ok a => k a
  | Raise e => Raise e
  end.

Notation "x ← r ;;; k" := (rbind r (λ x, k))
  (at level 20, r at level 100, k at level 200, right associativity,
   only parsing).

(** A list comprehension whose body can raise: elements are evaluated from
    left to right and the first exception ends the comprehension. *)
Fixpoint comprehension {A B} (f : A → result B) (l : list A) : result (list B) :=
  match l with
  | [] => Ok []
  | x :: l' =>
      y ← f x ;;; ys ← comprehension f l' ;;; Ok (y :: ys)
  end.

(** ** The model tree

    The class of the tree (a directed graph whose nodes are token tuples) is
    not part of the sources at hand; [identify.py] uses it through
    [tree[node]], [tree.nodes[node]["models"]], [tree.models],
    [tree.leaves], [tree.subtree(node)], [len(tree)], [tree.model_mapping],
    [tree.prune_models(models)] and [tree.condense()]. *)

(** Modelled from the spec: the tree class.  "Nodes addressed by their path
    inside a flat mapping from path to node record"; the mapping keeps the
    insertion order of the nodes, every entry carries the [models] set of
    its node.  [model_mapping] is the "immutable lookup from model
    identifier to its implementation label set". *)
Record ModelTree := {
  tree_nodes : list (node * gset model);
  model_mapping : model → list implementation;
}.

Definition node_names (t : ModelTree) : list node := (tree_nodes t).*1.

(** [child] is a child of [n]: its path is the path of [n] and one more
    token ("every non-root node has exactly one parent (its path with the
    last token removed)"). *)
Definition is_child (n child : node) : Prop :=
  match last child with
  | Some tok => child = n ++ [tok]
  | None => False
  end.

Global Instance is_child_dec n child : Decision (is_child n child).
Proof. unfold is_child. destruct (last child); apply _. Defined.

(** Modelled from the spec: [children(node)], the successors of a node "in
    deterministic order (insertion order from learning)".  They are the keys
    of a dictionary, hence pairwise distinct. *)
Definition successors (t : ModelTree) (n : node) : list node :=
  remove_dups (filter (is_child n) (node_names t)).

(** Modelled from the spec: [tree[node]].  Looking up a node that the tree
    does not have raises [KeyError] ([descent] relies on it). *)
Definition tree_getitem (t : ModelTree) (n : node) : result (list node) :=
  if decide (n ∈ node_names t) then Ok (successors t n) else Raise KeyError.

Fixpoint assoc {V} (n : node) (l : list (node * V)) : option V :=
  match l with
  | [] => None
  | (k, v) :: l' => if decide (k = n) then Some v else assoc n l'
  end.

(** Modelled from the spec: [tree.nodes[node]["models"]], "the set of model
    identifiers still consistent with reaching this node". *)
Definition node_models (t : ModelTree) (n : node) : result (gset model) :=
  match assoc n (tree_nodes t) with
  | Some ms => Ok ms
  | None => Raise KeyError
  end.

(** Modelled from the spec: [tree.subtree(node)], "a view restricted to the
    node and its descendants".  The nodes keep their names. *)
Definition subtree (t : ModelTree) (n : node) : ModelTree :=
  {| tree_nodes := filter (λ e, n `prefix_of` e.1) (tree_nodes t);
     model_mapping := model_mapping t |}.

(** Modelled from the spec: [tree.models], "all models in that subtree": the
    union of the [models] of the nodes of the tree (for a whole tree this is
    the [models] of the root, "the full universe"). *)
Definition tree_models (t : ModelTree) : gset model := ⋃ (tree_nodes t).*2.

(** Modelled from the spec: [len(tree)], the number of nodes; "an empty tree
    (size zero) is the sentinel for fully identified". *)
Definition tree_len (t : ModelTree) : nat := length (remove_dups (node_names t)).

(** Modelled from the spec: [tree.leaves], all current leaf nodes; a leaf is
    "a node with no out-edges".  [descent] tests membership in it at every
    iteration, so it is a collection that can be read more than once. *)
Definition leaves (t : ModelTree) : list node :=
  filter (λ n, successors t n = []) (node_names t).

(** Modelled from the spec: [tree.prune_models(removed)].  "Every node's
    models has removed_set subtracted, and any node whose resulting models is
    empty, along with its subtree, is deleted." *)
Definition prune_models (t : ModelTree) (removed : gset model) : ModelTree :=
  let pruned := (λ e, (e.1, e.2 ∖ removed)) <$> tree_nodes t in
  let dead := (filter (λ e, e.2 = ∅) pruned).*1 in
  {| tree_nodes := filter (λ e, Forall (λ d, ¬ d `prefix_of` e.1) dead) pruned;
     model_mapping := model_mapping t |}.

(** ** Weight functions *)

Definition weight_function := list implementation → Z.

Definition model_weight_equal : weight_function := λ _, 1%Z.

Definition model_weight_count : weight_function :=
  λ implementations, Z.of_nat (length implementations).

Definition sum_Z (l : list Z) : Z := foldl Z.add 0%Z l.

Definition _tree_weight (tree : ModelTree) (mapping : model → list implementation)
    (weight : weight_function) : Z :=
  sum_Z ((λ m, weight (mapping m)) <$> elements (tree_models tree)).

(** ** Input selectors *)

Definition selector := ModelTree → node → weight_function → result node.

(** [list(tree[current_node])[0]] *)
Definition always_first_selector : selector := λ tree current_node _,
  input_nodes ← tree_getitem tree current_node ;;;
  match input_nodes with
  | [] => Raise IndexError
  | first :: _ => Ok first
  end.

(** [random.choice(list(tree[current_node]))]; the random generator is the
    parameter [choice], which names a position in the sequence it is given.
    [random.choice] raises [IndexError] on an empty sequence. *)
Definition random_selector (choice : list node → nat) : selector :=
  λ tree current_node _,
  input_nodes ← tree_getitem tree current_node ;;;
  match input_nodes !! (choice input_nodes `mod` length input_nodes)%nat with
  | None => Raise IndexError
  | Some chosen => Ok chosen
  end.

(** [max(values)] and [min(items, key=...)] return the first best element:
    the running best is replaced only by a strictly better one.  On an empty
    sequence both raise [ValueError]. *)
Definition first_best {A} (better : A → A → bool) (l : list A) : result A :=
  match l with
  | [] => Raise ValueError
  | x :: l' => Ok (foldl (λ best y, if better y best then y else best) x l')
  end.

Definition Qlt_bool (a b : Q) : bool :=
  (Qnum a * Zpos (Qden b) <? Qnum b * Zpos (Qden a))%Z.

(** [x / total_weight] on two [int]s. *)
Definition py_truediv (x y : Z) : result Q :=
  if decide (y = 0%Z) then Raise ZeroDivisionError
  else Ok (inject_Z x / inject_Z y)%Q.

Definition sum_Q (l : list Q) : Q := foldl Qplus 0%Q l.

(** The list [weights] that both selectors build for one input node. *)
Definition branch_weights (tree : ModelTree) (weight : weight_function)
    (input_node : node) : result (list Z) :=
  output_nodes ← tree_getitem tree input_node ;;;
  Ok ((λ output_node,
         _tree_weight (subtree tree output_node) (model_mapping tree) weight)
        <$> output_nodes).

(** [1 - sum([(x / total_weight) ** 2 for x in weights])] *)
Definition gini_impurity (tree : ModelTree) (weight : weight_function)
    (total_weight : Z) (input_node : node) : result Q :=
  weights ← branch_weights tree weight input_node ;;;
  squares ← comprehension
    (λ x, p ← py_truediv x total_weight ;;; Ok (p ^ 2)%Q) weights ;;;
  Ok (1 - sum_Q squares)%Q.

Definition gini_selector : selector := λ tree current_node weight,
  let total_weight :=
    _tree_weight (subtree tree current_node) (model_mapping tree) weight in
  input_nodes ← tree_getitem tree current_node ;;;
  impurities ← comprehension
    (λ input_node,
       v ← gini_impurity tree weight total_weight input_node ;;;
       Ok (input_node, v)) input_nodes ;;;
  maximum_impurity ← first_best (λ y best, Qlt_bool best y) impurities.*2 ;;;
  let candidate_inputs :=
    (filter (λ e, Qeq_bool e.2 maximum_impurity = true) impurities).*1 in
  if decide (1 < length candidate_inputs)%nat then
    let subtree_sizes :=
      (λ n, (n, tree_len (subtree tree n))) <$> candidate_inputs in
    selected ← first_best (λ y best : node * nat, y.2 <? best.2)%nat subtree_sizes ;;;
    Ok selected.1
  else
    match candidate_inputs with
    | [] => Raise IndexError
    | selected :: _ => Ok selected
    end.

Global Instance Rlt_decision (a b : R) : Decision (a < b)%R := Rlt_dec a b.

Definition sum_R (l : list R) : R := foldl Rplus 0%R l.

(** [(x / total_weight) * math.log(x / total_weight)]: the division raises
    [ZeroDivisionError] for a zero total, [math.log] raises [ValueError]
    unless its argument is positive. *)
Definition entropy_term (x total_weight : Z) : result R :=
  if decide (total_weight = 0%Z) then Raise ZeroDivisionError
  else if decide (0 < x * total_weight)%Z
       then Ok (IZR x / IZR total_weight * ln (IZR x / IZR total_weight))%R
       else Raise ValueError.

(** [-1 * sum([(x / total_weight) * math.log(x / total_weight) ...])] *)
Definition entropy_metric (tree : ModelTree) (weight : weight_function)
    (total_weight : Z) (input_node : node) : result R :=
  weights ← branch_weights tree weight input_node ;;;
  terms ← comprehension (λ x, entropy_term x total_weight) weights ;;;
  Ok (-1 * sum_R terms)%R.

Definition entropy_selector : selector := λ tree current_node weight,
  let total_weight :=
    _tree_weight (subtree tree current_node) (model_mapping tree) weight in
  input_nodes ← tree_getitem tree current_node ;;;
  input_info ← comprehension
    (λ input_node,
       metric ← entropy_metric tree weight total_weight input_node ;;;
       Ok (input_node, metric)) input_nodes ;;;
  best ← first_best (λ y best : node * R, bool_decide (best.2 < y.2)%R) input_info ;;;
  Ok best.1.

(** ** Connectors *)

(** The calls that a connector has received, oldest first; a [send] is
    logged with what it returned ([None] also stands for a [send] that
    raised).  This log is not a field of the Python classes: it records which
    methods ran, so that statements about [send], [reset] and [close] can be
    made. *)
Inductive call :=
| CallSend (message : token) (response : option token)
| CallReset
| CallClose.

Global Instance call_eq_dec : EqDecision call.
Proof. solve_decision. Defined.

Record BenchmarkConnector := {
  target : model;
  messages : list token;
  current_node : node;
}.

(** The live connector talks to a remote peer through a socket.  The peer is
    the environment: [peer written] is what [recv] yields after the messages
    [written] have been written to the socket, or the exception of a failed
    transport. *)
Record TLSAttackerConnector := {
  peer : list token → result token;
  written : list token;
}.

Inductive connector_object :=
| Benchmark (b : BenchmarkConnector)
| TLSAttacker (a : TLSAttackerConnector).

Record Connector := {
  object : connector_object;
  calls : list call;
}.

Definition logged (c : Connector) (x : call) (o : connector_object) : Connector :=
  {| object := o; calls := calls c ++ [x] |}.

(** [BenchmarkConnector.send].  [self.tree] is the tree object that
    [identify] mutates, so the method reads the tree as it is now. *)
Definition BenchmarkConnector_send (tree : ModelTree) (self : BenchmarkConnector)
    (message : token) : result (option token) * BenchmarkConnector :=
  let self := {| target := target self;
                 messages := messages self ++ [message];
                 current_node := current_node self ++ [message] |} in
  match tree_getitem tree (current_node self) with
  | Raise e => (Raise e, self)
  | Ok neighbors =>
      match find (λ neighbor,
                    bool_decide (target self ∈ tree_models (subtree tree neighbor)))
                 neighbors with
      | Some neighbor =>
          match last neighbor with
          | None => (Raise IndexError, self)
          | Some output =>
              (Ok (Some output),
               {| target := target self;
                  messages := messages self ++ [output];
                  current_node := current_node self ++ [output] |})
          end
      | None => (Ok None, self)
      end
  end.

(** [TLSAttackerConnector.send]: write the message, return what is read. *)
Definition TLSAttackerConnector_send (self : TLSAttackerConnector)
    (message : token) : result (option token) * TLSAttackerConnector :=
  let self := {| peer := peer self; written := written self ++ [message] |} in
  match peer self (written self) with
  | Ok response => (Ok (Some response), self)
  | Raise e => (Raise e, self)
  end.

Definition response_of (r : result (option token)) : option token :=
  match r with
  | Ok response => response
  | Raise _ => None
  end.

Definition send (tree : ModelTree) (c : Connector) (message : token)
    : result (option token) * Connector :=
  match object c with
  | Benchmark b =>
      let '(r, b') := BenchmarkConnector_send tree b message in
      (r, logged c (CallSend message (response_of r)) (Benchmark b'))
  | TLSAttacker a =>
      let '(r, a') := TLSAttackerConnector_send a message in
      (r, logged c (CallSend message (response_of r)) (TLSAttacker a'))
  end.

(** [reset]: the benchmark connector appends ["RESET", ""] to its messages
    and moves its cursor back to the root; the live connector sends
    ["RESET"] and drops the answer. *)
Definition reset (tree : ModelTree) (c : Connector) : result () * Connector :=
  match object c with
  | Benchmark b =>
      (Ok (),
       logged c CallReset
         (Benchmark {| target := target b;
                       messages := messages b ++ ["RESET"; ""];
                       current_node := [] |}))
  | TLSAttacker a =>
      let '(r, c') := send tree (logged c CallReset (TLSAttacker a)) "RESET" in
      (_ ← r ;;; Ok (), c')
  end.

(** [close]: nothing to do for the benchmark connector; the live connector
    closes its socket and terminates the connector process. *)
Definition close (c : Connector) : Connector := logged c CallClose (object c).

(** ** Descent *)

Inductive step :=
| Absent
| Leaf (response_node : node)
| Inner (response_node : node).

(** One iteration of the [while descending] loop.  [send] of the benchmark
    connector can return [None]; [send_node + (None,)] is not a tuple of
    tokens, hence not a node of the tree, and the lookup raises the
    [KeyError] that [descent] catches. *)
Definition descent_step (tree : ModelTree) (select : selector)
    (weight : weight_function) (leaves : list node) (current_node : node)
    (c : Connector) : result step * Connector :=
  match select tree current_node weight with
  | Raise e => (Raise e, c)
  | Ok send_node =>
      match last send_node with
      | None => (Raise IndexError, c)
      | Some message =>
          match send tree c message with
          | (Raise e, c) => (Raise e, c)
          | (Ok None, c) => (Ok Absent, c)
          | (Ok (Some response), c) =>
              let response_node := send_node ++ [response] in
              match tree_getitem tree response_node with
              | Raise KeyError => (Ok Absent, c)
              | Raise e => (Raise e, c)
              | Ok _ =>
                  if decide (response_node ∈ leaves)
                  then (Ok (Leaf response_node), c)
                  else (Ok (Inner response_node), c)
              end
          end
      end
  end.

(** The loop of [descent]; [None] means that the fuel ran out. *)
Fixpoint descent_loop (fuel : nat) (tree : ModelTree) (select : selector)
    (weight : weight_function) (leaves : list node) (current_node : node)
    (c : Connector) : option (result (option node) * Connector) :=
  match fuel with
  | O => None
  | S fuel =>
      match descent_step tree select weight leaves current_node c with
      | (Raise e, c) => Some (Raise e, c)
      | (Ok Absent, c) => Some (Ok None, c)
      | (Ok (Leaf response_node), c) => Some (Ok (Some response_node), c)
      | (Ok (Inner response_node), c) =>
          descent_loop fuel tree select weight leaves response_node c
      end
  end.

Definition descent (fuel : nat) (tree : ModelTree) (select : selector)
    (weight : weight_function) (c : Connector)
    : option (result (option node) * Connector) :=
  descent_loop fuel tree select weight (leaves tree) [] c.

(** The connectors that [identify] constructs. *)
Definition benchmark_connector (target : model) : Connector :=
  {| object := Benchmark {| target := target; messages := []; current_node := [] |};
     calls := [] |}.

Definition live_connector (remote : list token → result token) : Connector :=
  {| object := TLSAttacker {| peer := remote; written := [] |}; calls := [] |}.

(** ** The identification loop *)

(** What [identify] returns: [None], the models of the last leaf, or (in
    benchmark mode) these models and [connector.messages]. *)
Inductive identify_value :=
| NoMatch
| Models (leaf_models : gset model)
| ModelsAndMessages (leaf_models : gset model) (path : list token).

(** How one iteration of [while identifing] ends: with a [return], or with
    [connector.reset()] and the tree for the next iteration.  Both keep the
    models of the leaf that the iteration reached, if it reached one. *)
Inductive round :=
| Return (leaf_models : option (gset model)) (v : identify_value)
| Again (leaf_models : gset model) (tree : ModelTree).

Definition recorded (r : round) : option (gset model) :=
  match r with
  | Return leaf_models _ => leaf_models
  | Again leaf_models _ => Some leaf_models
  end.

(** [return (leaf_models, connector.messages)] in benchmark mode, [return
    leaf_models] otherwise; [benchmark] is true exactly when the connector
    is a [BenchmarkConnector]. *)
Definition returned (c : Connector) (leaf_models : gset model) : identify_value :=
  match object c with
  | Benchmark b => ModelsAndMessages leaf_models (messages b)
  | TLSAttacker _ => Models leaf_models
  end.

Section identify.

(** Modelled from the spec: [tree.condense()], which "collapses redundant
    single-child chains".  The method is not part of the sources and the
    spec gives no algorithm for it, so the loop takes it as a parameter;
    what the spec promises about its result is stated where it is used. *)
Variable condense : ModelTree → ModelTree.

Variable select : selector.
Variable weight : weight_function.

(** One iteration of [while identifing].  Drawing ([graph_dir]) is left
    out: it does not change the models or the edges. *)
Definition identify_round (fuel : nat) (tree : ModelTree) (c : Connector)
    : option (result round * Connector) :=
  match descent fuel tree select weight c with
  | None => None
  | Some (Raise e, c) => Some (Raise e, c)
  | Some (Ok None, c) | Some (Ok (Some []), c) =>
      Some (Ok (Return None NoMatch), close c)
  | Some (Ok (Some leaf_node), c) =>
      match node_models tree leaf_node with
      | Raise e => Some (Raise e, c)
      | Ok leaf_models =>
          let tree := prune_models tree (tree_models tree ∖ leaf_models) in
          let tree := condense tree in
          if decide (tree_len tree = 0) then
            let c := close c in
            Some (Ok (Return (Some leaf_models) (returned c leaf_models)), c)
          else
            match reset tree c with
            | (Raise e, c) => Some (Raise e, c)
            | (Ok _, c) => Some (Ok (Again leaf_models tree), c)
            end
      end
  end.

(** The loop: [rounds] bounds the iterations of [while identifing], [fuel]
    those of each descent. *)
Fixpoint identify_loop (rounds fuel : nat) (tree : ModelTree) (c : Connector)
    : option (result identify_value * Connector) :=
  match rounds with
  | O => None
  | S rounds =>
      match identify_round fuel tree c with
      | None => None
      | Some (Raise e, c) => Some (Raise e, c)
      | Some (Ok (Return _ v), c) => Some (Ok v, c)
      | Some (Ok (Again _ tree), c) => identify_loop rounds fuel tree c
      end
  end.

(** The state at the start of iteration [k + 1], if the first [k]
    iterations all ended with a reset. *)
Fixpoint after_rounds (k fuel : nat) (tree : ModelTree) (c : Connector)
    : option (ModelTree * Connector) :=
  match k with
  | O => Some (tree, c)
  | S k =>
      match identify_round fuel tree c with
      | Some (Ok (Again _ tree), c) => after_rounds k fuel tree c
      | _ => None
      end
  end.

(** [identify(tree, target, target_port, graph_dir=None, selector,
    weight_function, benchmark)].  [remote] is the peer that the live
    connector reaches at [target] and [target_port]; starting the connector
    process and opening its socket are taken to succeed. *)
Definition identify (rounds fuel : nat) (remote : list token → result token)
    (tree : ModelTree) (target : model) (benchmark : bool)
    : option (result identify_value * Connector) :=
  let connector :=
    if benchmark then benchmark_connector target else live_connector remote in
  identify_loop rounds fuel tree connector.

End identify.

(** ** Benchmark metrics ([benchmark.py]) *)

Definition count_inputs (messages : list token) : nat := length messages / 2.

Definition count_resets (messages : list token) : nat :=
  length (filter (λ m, m = "RESET") messages).

Record metrics := {
  inputs : nat;
  resets : nat;
}.

Section benchmark.

Variable condense : ModelTree → ModelTree.

(** [benchmark_model(tree, model, selector, weight_function)] without the
    clock.  Unpacking [None] raises [TypeError]; with [benchmark=True]
    [identify] returns a pair or [None]. *)
Definition benchmark_model (rounds fuel : nat) (tree : ModelTree)
    (model : model) (select : selector) (weight : weight_function)
    : option (result metrics * Connector) :=
  match identify condense select weight rounds fuel (λ _, Raise OSError)
          tree model true with
  | None => None
  | Some (Raise e, c) => Some (Raise e, c)
  | Some (Ok (ModelsAndMessages candidate_models path), c) =>
      if decide (candidate_models = {[ model ]})
      then Some (Ok {| inputs := count_inputs path;
                       resets := count_resets path |}, c)
      else Some (Raise RuntimeError, c)
  | Some (Ok _, c) => Some (Raise TypeError, c)
  end.

End benchmark.

(** ** Vocabulary of the statements *)

(** *** Calls *)

Definition is_send (x : call) : Prop :=
  match x with CallSend _ _ => True | _ => False end.

Global Instance is_send_dec x : Decision (is_send x).
Proof. destruct x; apply _. Defined.

Definition send_calls (c : Connector) : nat :=
  length (filter is_send (calls c)).

Definition reset_calls (c : Connector) : nat :=
  length (filter (λ x, x = CallReset) (calls c)).

(** The tokens of one call as the benchmark connector appends them to
    [messages]. *)
Definition transcript (x : call) : list token :=
  match x with
  | CallSend message (Some response) => [message; response]
  | CallSend message None => [message]
  | CallReset => ["RESET"; ""]
  | CallClose => []
  end.

(** How often the token ["RESET"] was sent or received through [send]. *)
Definition reset_tokens (c : Connector) : nat :=
  count_resets (concat (transcript <$> filter is_send (calls c))).

(** Every [send] so far returned a token. *)
Definition answered (c : Connector) : Prop :=
  Forall (λ x, ∀ message, x ≠ CallSend message None) (calls c).

(** The connector is a benchmark connector and its [messages] are the
    transcript of the calls it received. *)
Definition transcribed (c : Connector) : Prop :=
  ∃ b, object c = Benchmark b ∧ messages b = concat (transcript <$> calls c).

(** The connector is the benchmark connector for the target [tg], with its
    cursor at the node [cur]. *)
Definition at_cursor (tg : model) (cur : node) (c : Connector) : Prop :=
  ∃ b, object c = Benchmark b ∧ target b = tg ∧ current_node b = cur.

(** *** Positions of a run *)

(** The position of a descent after [j] iterations that all went on to an
    inner node. *)
Fixpoint after_steps (j : nat) (tree : ModelTree) (select : selector)
    (weight : weight_function) (leaves : list node) (current_node : node)
    (c : Connector) : option (node * Connector) :=
  match j with
  | O => Some (current_node, c)
  | S j =>
      match descent_step tree select weight leaves current_node c with
      | (Ok (Inner response_node), c) =>
          after_steps j tree select weight leaves response_node c
      | _ => None
      end
  end.

(** A selector that answers with an input edge of the current node, as the
    selectors of [identify.py] do. *)
Definition selects_children (select : selector) : Prop :=
  ∀ tree current_node weight send_node,
    select tree current_node weight = Ok send_node →
    send_node ∈ successors tree current_node.

(** *** The measures of the selectors *)

Definition weights_of (tree : ModelTree) (weight : weight_function)
    (input_node : node) : list Z :=
  (λ output_node,
     _tree_weight (subtree tree output_node) (model_mapping tree) weight)
    <$> successors tree input_node.

Definition total_weight_at (tree : ModelTree) (weight : weight_function)
    (current_node : node) : Z :=
  _tree_weight (subtree tree current_node) (model_mapping tree) weight.

Global Instance Qle_decision (a b : Q) : Decision (a <= b)%Q :=
  Z_le_dec (Qnum a * Zpos (Qden b)) (Qnum b * Zpos (Qden a)).

Global Instance Qlt_decision (a b : Q) : Decision (a < b)%Q :=
  Z_lt_dec (Qnum a * Zpos (Qden b)) (Qnum b * Zpos (Qden a)).

(** Gini impurity of an input edge: [1 − Σ (branch_weight / total)²]. *)
Definition gini_value (tree : ModelTree) (weight : weight_function)
    (total : Z) (input_node : node) : Q :=
  (1 - sum_Q ((λ x, (inject_Z x / inject_Z total) ^ 2) <$>
              weights_of tree weight input_node))%Q.

(** Entropy of an input edge: [−Σ p·ln(p)] with [p = branch_weight / total]. *)
Definition entropy_value (tree : ModelTree) (weight : weight_function)
    (total : Z) (input_node : node) : R :=
  (-1 * sum_R ((λ x, IZR x / IZR total * ln (IZR x / IZR total)) <$>
               weights_of tree weight input_node))%R.

(** [input_node] attains the maximum Gini impurity among [input_nodes]. *)
Definition gini_maximal (tree : ModelTree) (weight : weight_function)
    (total : Z) (input_nodes : list node) (input_node : node) : Prop :=
  input_node ∈ input_nodes ∧
  Forall (λ other, (gini_value tree weight total other <=
                    gini_value tree weight total input_node)%Q) input_nodes.

(** *** What the spec says of the trees *)

(** "Every surviving non-leaf node has at least two children." *)
Definition condensed (t : ModelTree) : Prop :=
  Forall (λ n, successors t n = [] ∨ (2 ≤ length (successors t n))%nat)
    (node_names t).

(** What a descent needs of it: an input edge that has a response has at
    least two.  (The nodes that an input token leads to are those with a
    path of odd length.) *)
Definition branching_responses (t : ModelTree) : Prop :=
  Forall (λ n, Nat.odd (length n) = true →
               successors t n = [] ∨ (2 ≤ length (successors t n))%nat)
    (node_names t).

(** "Every non-root node has exactly one parent (its path with the last
    token removed)." *)
Definition parent_closed (t : ModelTree) : Prop :=
  Forall (λ n, n = [] ∨ removelast n ∈ node_names t) (node_names t).

(** Pruning deletes "any node whose resulting models is empty". *)
Definition inhabited (t : ModelTree) : Prop :=
  Forall (λ e, e.2 ≠ ∅) (tree_nodes t).

(** A node that a response token leads to: the tokens of a path alternate
    between input and response. *)
Definition response_position (n : node) : Prop :=
  n ≠ [] ∧ Nat.even (length n) = true.

(** The responses to one input are given by different models: there is "the
    one response branch whose subtree still contains the target model". *)
Definition responses_disjoint (t : ModelTree) : Prop :=
  Forall (λ a, Forall (λ b,
    response_position a.1 → response_position b.1 →
    removelast a.1 = removelast b.1 → a.1 ≠ b.1 → a.2 ## b.2)
    (tree_nodes t)) (tree_nodes t).

(** ** A condense function and trees to run the loop with *)

(** Modelled from the spec: one function that meets what the spec says of
    [condense()]: nodes with exactly one child are taken out with the chain
    below them, "until every surviving non-leaf node has at least two
    children or the tree has exactly one leaf remaining", the latter
    "represented as an empty tree". *)
Definition drop_single_chains (t : ModelTree) : ModelTree :=
  let single := filter (λ n, length (successors t n) = 1%nat) (node_names t) in
  {| tree_nodes :=
       filter (λ e, Forall (λ s, ¬ s `prefix_of` e.1) single) (tree_nodes t);
     model_mapping := model_mapping t |}.

Definition condense_chains (t : ModelTree) : ModelTree :=
  let t' := Nat.iter (length (tree_nodes t)) drop_single_chains t in
  if decide (tree_len t' ≤ 1)%nat
  then {| tree_nodes := []; model_mapping := model_mapping t |}
  else t'.

Definition no_implementations : model → list implementation := λ _, [].

(** Three inputs, three models; no single input tells all models apart. *)
Definition three_inputs : ModelTree := {|
  tree_nodes := [ ([], {[ "m1"; "m2"; "m3" ]});
                  (["A"], {[ "m1"; "m2"; "m3" ]});
                  (["A"; "0"], {[ "m1" ]});
                  (["A"; "1"], {[ "m2"; "m3" ]});
                  (["B"], {[ "m1"; "m2"; "m3" ]});
                  (["B"; "0"], {[ "m1"; "m2" ]});
                  (["B"; "1"], {[ "m3" ]});
                  (["C"], {[ "m1"; "m2"; "m3" ]});
                  (["C"; "0"], {[ "m1"; "m3" ]});
                  (["C"; "1"], {[ "m2" ]}) ];
  model_mapping := no_implementations |}.

(** Two inputs of equal Gini impurity; the subtree of [B] is the smaller. *)
Definition tie_tree : ModelTree := {|
  tree_nodes := [ ([], {[ "m1"; "m2" ]});
                  (["A"], {[ "m1"; "m2" ]});
                  (["A"; "0"], {[ "m1" ]});
                  (["A"; "1"], {[ "m2" ]});
                  (["A"; "1"; "X"], {[ "m2" ]});
                  (["B"], {[ "m1"; "m2" ]});
                  (["B"; "0"], {[ "m1" ]});
                  (["B"; "1"], {[ "m2" ]}) ];
  model_mapping := no_implementations |}.

(** Seven models: input [A] splits them 3/4, input [B] splits them 5/1/1. *)
Definition split_tree : ModelTree :=
  let all : gset model := {[ "m1"; "m2"; "m3"; "m4"; "m5"; "m6"; "m7" ]} in
  {| tree_nodes := [ ([], all);
                     (["A"], all);
                     (["A"; "0"], {[ "m1"; "m2"; "m3" ]});
                     (["A"; "1"], {[ "m4"; "m5"; "m6"; "m7" ]});
                     (["B"], all);
                     (["B"; "0"], {[ "m1"; "m2"; "m3"; "m4"; "m5" ]});
                     (["B"; "1"], {[ "m6" ]});
                     (["B"; "2"], {[ "m7" ]}) ];
     model_mapping := no_implementations |}.

(** Input [A] tells the two models apart, input [B] does not. *)
Definition coin_tree : ModelTree := {|
  tree_nodes := [ ([], {[ "m1"; "m2" ]});
                  (["A"], {[ "m1"; "m2" ]});
                  (["A"; "0"], {[ "m1" ]});
                  (["A"; "1"], {[ "m2" ]});
                  (["B"], {[ "m1"; "m2" ]});
                  (["B"; "0"], {[ "m1"; "m2" ]}) ];
  model_mapping := no_implementations |}.

(** A root with one input edge that has no response. *)
Definition unanswered_tree : ModelTree := {|
  tree_nodes := [ ([], {[ "m1" ]}); (["A"], {[ "m1" ]}) ];
  model_mapping := no_implementations |}.

(** [three_inputs] after a first round that reached the leaf [("A", "1")]:
    pruned to the models of that leaf and condensed. *)
Definition two_inputs : ModelTree := {|
  tree_nodes := [ ([], {[ "m2"; "m3" ]});
                  (["B"], {[ "m2"; "m3" ]});
                  (["B"; "0"], {[ "m2" ]});
                  (["B"; "1"], {[ "m3" ]});
                  (["C"], {[ "m2"; "m3" ]});
                  (["C"; "0"], {[ "m3" ]});
                  (["C"; "1"], {[ "m2" ]}) ];
  model_mapping := no_implementations |}.

(** The benchmark connector for [m2] after that round and its reset, and
    after the second round. *)
Definition after_first_round : Connector :=
  {| object := Benchmark {| target := "m2";
                            messages := ["A"; "1"; "RESET"; ""];
                            current_node := [] |};
     calls := [CallSend "A" (Some "1"); CallReset] |}.

Definition after_second_round : Connector :=
  {| object := Benchmark {| target := "m2";
                            messages := ["A"; "1"; "RESET"; ""; "B"; "0"];
                            current_node := ["B"; "0"] |};
     calls := [CallSend "A" (Some "1"); CallReset;
               CallSend "B" (Some "0"); CallClose] |}.

(** One input, two responses, one model each. *)
Definition single_input : ModelTree := {|
  tree_nodes := [ ([], {[ "m1"; "m2" ]});
                  (["A"], {[ "m1"; "m2" ]});
                  (["A"; "0"], {[ "m1" ]});
                  (["A"; "1"], {[ "m2" ]}) ];
  model_mapping := no_implementations |}.

(** [single_input] where only the model [m1] has an implementation. *)
Definition half_labelled : ModelTree := {|
  tree_nodes := tree_nodes single_input;
  model_mapping := λ m, if decide (m = "m1") then [("openssl", "1.0.2")] else [] |}.

(** The tree of size zero. *)
Definition empty_tree : ModelTree := {|
  tree_nodes := [];
  model_mapping := no_implementations |}.


(** ** The rest of [identify.py] and [benchmark.py] *)

(** *** The recency weight and the tables *)

(** ["openssl" in name]: the first string occurs in the second. *)
Definition contains (needle haystack : string) : bool :=
  if String.index 0 needle haystack is Some _ then true else false.

Section recent.

(** [LooseVersion(a) >= LooseVersion(b)]: the version order of the library
    [distutils] is a parameter. *)
Variable version_ge : string → string → bool.

Definition implementation_weight_recent (implementation : implementation) : Z :=
  let weight := 1%Z in
  let '(name, number) := implementation in
  if contains "openssl" name then
    let weight := (weight * 5)%Z in
    if version_ge number "1.1" then (weight * 5)%Z
    else if version_ge number "1.0" then (weight * 2)%Z
    else weight
  else if contains "mbedtls" name then
    if version_ge number "2.7" then (weight * 5)%Z
    else if version_ge number "2.0" then (weight * 2)%Z
    else weight
  else weight.

Definition model_weight_recent : weight_function :=
  λ implementations, sum_Z (implementation_weight_recent <$> implementations).

(** [MODEL_WEIGHTS[name]] *)
Definition MODEL_WEIGHTS (name : string) : result weight_function :=
  if decide (name = "equal") then Ok model_weight_equal
  else if decide (name = "count") then Ok model_weight_count
  else if decide (name = "recent") then Ok model_weight_recent
  else Raise KeyError.

End recent.

(** [INPUT_SELECTORS[name]]; the entropy selector is not in the table. *)
Definition INPUT_SELECTORS (choice : list node → nat) (name : string)
    : result selector :=
  if decide (name = "random") then Ok (random_selector choice)
  else if decide (name = "first") then Ok always_first_selector
  else if decide (name = "gini") then Ok gini_selector
  else Raise KeyError.

(** *** Colouring a path *)

(** The [color] argument of [_color_path]: a string, or [False]. *)
Inductive py_color :=
| ColorFalse
| Color (name : string).

(** [if color:] *)
Definition truthy (color : py_color) : bool :=
  match color with
  | ColorFalse => false
  | Color name => bool_decide (name ≠ "")
  end.

(** The ["color"] entries of the attribute dictionaries of the nodes and of
    the edges of a tree; a node or edge without the attribute has no entry. *)
Record colors := {
  node_color : gmap node string;
  edge_color : gmap (node * node) string;
}.

(** [tuple(endpoint[:i] for i in range(len(endpoint) + 1))] *)
Definition path_nodes (endpoint : node) : list node :=
  (λ i, take i endpoint) <$> seq 0 (S (length endpoint)).

(** [tuple(zip(node_names, node_names[1:]))] *)
Definition path_edges (endpoint : node) : list (node * node) :=
  zip (path_nodes endpoint) (tail (path_nodes endpoint)).

(** Modelled from the spec: the edges of the tree, from a node to each of
    its children; [tree.edges[name]] raises [KeyError] for any other pair. *)
Definition has_edge (t : ModelTree) (e : node * node) : Prop :=
  e.1 ∈ node_names t ∧ e.2 ∈ successors t e.1.

Definition set_color {K} `{Countable K} (name : string) (keys : list K)
    (m : gmap K string) : gmap K string :=
  foldl (λ m k, <[k := name]> m) m keys.

Definition del_color {K} `{Countable K} (keys : list K) (m : gmap K string)
    : gmap K string :=
  foldl (λ m k, delete k m) m keys.

(** [_color_path(tree, endpoint, color)]: the two list comprehensions look
    up every node and every edge of the path before any attribute is
    written. *)
Definition _color_path (tree : ModelTree) (c : colors) (endpoint : node)
    (color : py_color) : result colors :=
  let names := path_nodes endpoint in
  let edge_names := path_edges endpoint in
  if decide (Forall (λ name, name ∈ node_names tree) names) then
    if decide (Forall (has_edge tree) edge_names) then
      match color with
      | Color name =>
          if truthy color
          then Ok {| node_color := set_color name names (node_color c);
                     edge_color := set_color name edge_names (edge_color c) |}
          else Ok {| node_color := del_color names (node_color c);
                     edge_color := del_color edge_names (edge_color c) |}
      | ColorFalse =>
          Ok {| node_color := del_color names (node_color c);
                edge_color := del_color edge_names (edge_color c) |}
      end
    else Raise KeyError
  else Raise KeyError.

(** The ["color"] entry that [_color_path] leaves on the path: the colour,
    or no entry when the colour is false. *)
Definition color_entry (color : py_color) : option string :=
  match color with
  | Color name => if truthy color then Some name else None
  | ColorFalse => None
  end.

(** The edge from [a] to [b] lies on the path from the root to [endpoint]. *)
Definition on_path (endpoint : node) (e : node * node) : Prop :=
  is_child e.1 e.2 ∧ e.2 `prefix_of` endpoint.

Global Instance on_path_dec endpoint e : Decision (on_path endpoint e).
Proof. unfold on_path. apply _. Defined.

(** *** The tree after [identify], and [benchmark] *)

Section benchmark_runs.

Variable condense : ModelTree → ModelTree.

(** [identify] prunes and condenses the tree object it is given; this is
    that object when [identify] has returned. *)
Fixpoint identify_tree (select : selector) (weight : weight_function)
    (rounds fuel : nat) (tree : ModelTree) (c : Connector) : option ModelTree :=
  match rounds with
  | O => None
  | S rounds =>
      match identify_round condense select weight fuel tree c with
      | Some (Ok (Return None _), _) => Some tree
      | Some (Ok (Return (Some leaf_models) _), _) =>
          Some (condense (prune_models tree (tree_models tree ∖ leaf_models)))
      | Some (Ok (Again _ tree), c) =>
          identify_tree select weight rounds fuel tree c
      | _ => None
      end
  end.

(** The loop of [benchmark]: every iteration calls [benchmark_model] with
    the same tree object. *)
Fixpoint benchmark_loop (rounds fuel iterations : nat) (tree : ModelTree)
    (model : model) (select : selector) (weight : weight_function)
    : option (result (list metrics)) :=
  match iterations with
  | O => Some (Ok [])
  | S iterations =>
      match benchmark_model condense rounds fuel tree model select weight with
      | None => None
      | Some (Raise e, _) => Some (Raise e)
      | Some (Ok m, _) =>
          match identify_tree select weight rounds fuel tree
                  (benchmark_connector model) with
          | None => None
          | Some tree =>
              match benchmark_loop rounds fuel iterations tree model select
                      weight with
              | None => None
              | Some results => Some (ms ← results ;;; Ok (m :: ms))
              end
          end
      end
  end.

Variable choice : list node → nat.
Variable version_ge : string → string → bool.

(** [benchmark(info)], reduced to its ["Results"]. *)
Definition benchmark (rounds fuel : nat) (tree : ModelTree) (model : model)
    (input_selector weight_function : string) (iterations : nat)
    : option (result (list metrics)) :=
  match INPUT_SELECTORS choice input_selector with
  | Raise e => Some (Raise e)
  | Ok select =>
      match MODEL_WEIGHTS version_ge weight_function with
      | Raise e => Some (Raise e)
      | Ok weight =>
          benchmark_loop rounds fuel iterations tree model select weight
      end
  end.

End benchmark_runs.

(** *** More vocabulary *)

(** The messages of the [send] calls, in order. *)
Definition sent_messages (l : list call) : list token :=
  omap (λ x, match x with CallSend message _ => Some message | _ => None end) l.

(** The connector is the live connector to [remote], and what it has
    written to its socket are the messages of its [send] calls. *)
Definition wired (remote : list token → result token) (c : Connector) : Prop :=
  ∃ a, object c = TLSAttacker a ∧ peer a = remote ∧
       written a = sent_messages (calls c).

(** * Properties of the tree operations *)

(** Closes a decidable statement about concrete trees by evaluation. *)
Ltac by_evaluation := apply (bool_decide_unpack _); vm_compute; exact I.

Lemma is_child_spec (n child : node) :
  is_child n child ↔ ∃ tok, child = n ++ [tok].
Proof.
  unfold is_child. split.
  - destruct (last child) as [tok|] eqn:E; [eauto | tauto].
  - intros [tok ->]. by rewrite last_snoc.
Qed.

Lemma elem_of_successors (t : ModelTree) (n child : node) :
  child ∈ successors t n ↔ is_child n child ∧ child ∈ node_names t.
Proof.
  unfold successors. by rewrite elem_of_remove_dups, list_elem_of_filter.
Qed.

Lemma NoDup_successors (t : ModelTree) (n : node) : NoDup (successors t n).
Proof. apply NoDup_remove_dups. Qed.

Lemma successors_last (t : ModelTree) (n child : node) :
  child ∈ successors t n → ∃ tok, last child = Some tok ∧ child = n ++ [tok].
Proof.
  rewrite elem_of_successors, is_child_spec. intros [[tok ->] _].
  exists tok. by rewrite last_snoc.
Qed.

Lemma tree_getitem_Ok (t : ModelTree) (n : node) (l : list node) :
  tree_getitem t n = Ok l ↔ n ∈ node_names t ∧ l = successors t n.
Proof.
  unfold tree_getitem. case_decide; split.
  - intros [= <-]. done.
  - intros [_ ->]. done.
  - done.
  - tauto.
Qed.

Lemma tree_getitem_Raise (t : ModelTree) (n : node) (e : exn) :
  tree_getitem t n = Raise e ↔ (n ∉ node_names t) ∧ e = KeyError.
Proof.
  unfold tree_getitem. case_decide; split; try done; try tauto.
  - by intros [= <-].
  - by intros [_ ->].
Qed.

Lemma assoc_Some {V} (n : node) (l : list (node * V)) (v : V) :
  assoc n l = Some v → (n, v) ∈ l.
Proof.
  induction l as [|[k w] l IH]; simpl; [done|].
  case_decide as E.
  - intros [= ->]. subst. left.
  - intros H. right. auto.
Qed.

Lemma assoc_is_Some {V} (n : node) (l : list (node * V)) :
  n ∈ l.*1 → is_Some (assoc n l).
Proof.
  induction l as [|[k w] l IH]; simpl.
  - by intros ?%elem_of_nil.
  - case_decide; [eauto|].
    intros [?|?]%elem_of_cons; [congruence | auto].
Qed.

Lemma node_models_Ok (t : ModelTree) (n : node) (ms : gset model) :
  node_models t n = Ok ms → (n, ms) ∈ tree_nodes t.
Proof.
  unfold node_models. destruct (assoc n (tree_nodes t)) eqn:E; [|done].
  intros [= <-]. by apply assoc_Some.
Qed.

Lemma node_models_defined (t : ModelTree) (n : node) :
  n ∈ node_names t → ∃ ms, node_models t n = Ok ms.
Proof.
  intros [ms E]%assoc_is_Some. exists ms. unfold node_models. by rewrite E.
Qed.

Lemma elem_of_tree_models (t : ModelTree) (m : model) :
  m ∈ tree_models t ↔ ∃ e, e ∈ tree_nodes t ∧ m ∈ e.2.
Proof.
  unfold tree_models. rewrite elem_of_union_list. split.
  - intros (X & HX & Hm). apply list_elem_of_fmap in HX as [e [-> He]]. eauto.
  - intros (e & He & Hm). exists e.2. split; [|done].
    by apply list_elem_of_fmap_2.
Qed.

(** Pruning by everything outside [keep] leaves only models of [keep]. *)
Lemma prune_models_keeps (t : ModelTree) (keep : gset model) :
  tree_models (prune_models t (tree_models t ∖ keep)) ⊆ keep.
Proof.
  intros m [e [He Hm]]%elem_of_tree_models.
  unfold prune_models in He. simpl in He.
  apply list_elem_of_filter in He as [_ He].
  apply list_elem_of_fmap in He as [e0 [-> He0]]. simpl in Hm.
  apply elem_of_difference in Hm as [Hm Hn].
  destruct (decide (m ∈ keep)) as [|Hk]; [done|].
  exfalso. apply Hn. apply elem_of_difference. split; [|done].
  apply elem_of_tree_models. eauto.
Qed.

(** * The selectors *)

Lemma comprehension_Ok {A B} (f : A → result B) (g : A → B) (l : list A) :
  (∀ x, x ∈ l → f x = Ok (g x)) → comprehension f l = Ok (g <$> l).
Proof.
  induction l as [|a l IH]; simpl; intros H; [done|].
  rewrite H by left. simpl. rewrite IH; [done|].
  intros x Hx. apply H. by right.
Qed.

Lemma comprehension_Raise {A B} (f : A → result B) (e : exn) (l : list A) :
  (∀ x, x ∈ l → f x = Raise e ∨ ∃ y, f x = Ok y) →
  (∃ x, x ∈ l ∧ f x = Raise e) →
  comprehension f l = Raise e.
Proof.
  induction l as [|a l IH]; intros Hall (x & Hx & Hfx).
  - by apply elem_of_nil in Hx.
  - simpl. destruct (Hall a) as [->|[y Hy]]; [left|done|].
    rewrite Hy. simpl. rewrite IH; [done| |].
    + intros z Hz. apply Hall. by right.
    + exists x. split; [|done].
      apply elem_of_cons in Hx as [->|Hx]; [congruence|done].
Qed.

Section first_best.

Context {A : Type} (better : A → A → bool) (le : A → A → Prop).
Hypothesis le_refl : ∀ x, le x x.
Hypothesis le_trans : ∀ x y z, le x y → le y z → le x z.
Hypothesis better_true : ∀ y best, better y best = true → le best y.
Hypothesis better_false : ∀ y best, better y best = false → le y best.

Lemma foldl_best (l : list A) (x : A) :
  let r := foldl (λ best y, if better y best then y else best) x l in
  (r = x ∨ r ∈ l) ∧ le x r ∧ ∀ y, y ∈ l → le y r.
Proof.
  revert x. induction l as [|a l IH]; intros x; simpl.
  - split; [by left|]. split; [done|]. intros y Hy.
    by apply elem_of_nil in Hy.
  - destruct (better a x) eqn:E.
    + destruct (IH a) as (Hin & Hle & Hall). split; [|split].
      * right. destruct Hin as [->|Hin]; [left|by right].
      * eapply le_trans; [by apply better_true|done].
      * intros y [->|Hy]%elem_of_cons; auto.
    + destruct (IH x) as (Hin & Hle & Hall). split; [|split].
      * destruct Hin as [Hin|Hin]; [by left|right; by right].
      * done.
      * intros y [->|Hy]%elem_of_cons; [|auto].
        eapply le_trans; [by apply better_false|done].
Qed.

(** [max] and [min] return an element that none is better than. *)
Lemma first_best_spec (l : list A) :
  l ≠ [] → ∃ x, first_best better l = Ok x ∧ x ∈ l ∧ ∀ y, y ∈ l → le y x.
Proof.
  destruct l as [|a l]; [done|]. intros _. simpl.
  destruct (foldl_best l a) as (Hin & Hle & Hall).
  eexists. split; [done|]. split.
  - destruct Hin as [->|Hin]; [left|by right].
  - intros y [->|Hy]%elem_of_cons; auto.
Qed.

End first_best.

Lemma Qlt_bool_true (a b : Q) : Qlt_bool a b = true → (a <= b)%Q.
Proof.
  unfold Qlt_bool. intros H%Z.ltb_lt. apply Qlt_le_weak. exact H.
Qed.

Lemma Qlt_bool_false (a b : Q) : Qlt_bool a b = false → (b <= a)%Q.
Proof.
  unfold Qlt_bool. intros H%Z.ltb_ge. exact H.
Qed.

Lemma successors_node (tree : ModelTree) (cur input_node : node) :
  input_node ∈ successors tree cur → input_node ∈ node_names tree.
Proof. by intros [_ ?]%elem_of_successors. Qed.

Lemma branch_weights_Ok (tree : ModelTree) (weight : weight_function)
    (input_node : node) :
  input_node ∈ node_names tree →
  branch_weights tree weight input_node = Ok (weights_of tree weight input_node).
Proof.
  intros H. unfold branch_weights, tree_getitem. by rewrite decide_True.
Qed.

Lemma gini_impurity_Ok (tree : ModelTree) (weight : weight_function)
    (total : Z) (input_node : node) :
  total ≠ 0%Z → input_node ∈ node_names tree →
  gini_impurity tree weight total input_node =
  Ok (gini_value tree weight total input_node).
Proof.
  intros Htotal Hnode. unfold gini_impurity.
  rewrite branch_weights_Ok by done. simpl.
  rewrite (comprehension_Ok _ (λ x, (inject_Z x / inject_Z total) ^ 2)%Q).
  - done.
  - intros x _. unfold py_truediv. by rewrite decide_False.
Qed.

(** With a zero total the division raises for the first branch weight. *)
Lemma gini_impurity_zero (tree : ModelTree) (weight : weight_function)
    (input_node : node) :
  input_node ∈ node_names tree →
  gini_impurity tree weight 0 input_node =
  match successors tree input_node with
  | [] => Ok 1%Q
  | _ => Raise ZeroDivisionError
  end.
Proof.
  intros Hnode. unfold gini_impurity.
  rewrite branch_weights_Ok by done. unfold weights_of.
  by destruct (successors tree input_node).
Qed.

Lemma entropy_metric_zero (tree : ModelTree) (weight : weight_function)
    (input_node : node) :
  input_node ∈ node_names tree →
  entropy_metric tree weight 0 input_node =
  match successors tree input_node with
  | [] => Ok (-1 * 0)%R
  | _ => Raise ZeroDivisionError
  end.
Proof.
  intros Hnode. unfold entropy_metric.
  rewrite branch_weights_Ok by done. unfold weights_of.
  by destruct (successors tree input_node).
Qed.

Lemma entropy_metric_Ok (tree : ModelTree) (weight : weight_function)
    (total : Z) (input_node : node) :
  total ≠ 0%Z → input_node ∈ node_names tree →
  (∀ x, x ∈ weights_of tree weight input_node → (0 < x * total)%Z) →
  entropy_metric tree weight total input_node =
  Ok (entropy_value tree weight total input_node).
Proof.
  intros Htotal Hnode Hpos. unfold entropy_metric.
  rewrite branch_weights_Ok by done. simpl.
  rewrite (comprehension_Ok _
    (λ x, IZR x / IZR total * ln (IZR x / IZR total))%R).
  - done.
  - intros x Hx. unfold entropy_term.
    rewrite decide_False by done. by rewrite decide_True by auto.
Qed.

Lemma filter_fmap_fst {A B} (f : A → B) (P : B → Prop) `{!∀ y, Decision (P y)}
    (l : list A) :
  (filter (λ e, P e.2) ((λ x, (x, f x)) <$> l)).*1 = filter (λ x, P (f x)) l.
Proof.
  induction l as [|a l IH]; [done|].
  rewrite fmap_cons, (filter_cons (λ e : A * B, P e.2)),
    (filter_cons (λ x, P (f x))).
  cbn [snd]. destruct (decide (P (f a))).
  - rewrite fmap_cons. cbn [fst]. by rewrite IH.
  - exact IH.
Qed.

Lemma length_two {A} (l : list A) (x y : A) :
  x ∈ l → y ∈ l → x ≠ y → (1 < length l)%nat.
Proof.
  destruct l as [|a [|b l]]; simpl.
  - by intros ?%elem_of_nil.
  - intros ->%list_elem_of_singleton ->%list_elem_of_singleton. done.
  - lia.
Qed.

(** The Gini selector returns an input edge of maximal impurity, and among
    these one with a smallest subtree. *)
Lemma gini_selector_spec (tree : ModelTree) (cur : node)
    (weight : weight_function) (input_nodes : list node) :
  let total := total_weight_at tree weight cur in
  total ≠ 0%Z →
  tree_getitem tree cur = Ok input_nodes →
  input_nodes ≠ [] →
  ∃ selected,
    gini_selector tree cur weight = Ok selected ∧
    gini_maximal tree weight total input_nodes selected ∧
    ∀ other, gini_maximal tree weight total input_nodes other →
      (tree_len (subtree tree selected) ≤ tree_len (subtree tree other))%nat.
Proof.
  intros total Htotal Hget Hne.
  pose proof Hget as [_ Hsucc]%tree_getitem_Ok.
  set (value := gini_value tree weight total).
  unfold gini_selector. fold (total_weight_at tree weight cur). fold total.
  rewrite Hget. simpl.
  rewrite (comprehension_Ok _ (λ n, (n, value n))); last first.
  { intros n Hn. rewrite gini_impurity_Ok; [done|done|].
    rewrite Hsucc in Hn. by eapply successors_node. }
  simpl.
  destruct (first_best_spec (λ y best, Qlt_bool best y) Qle Qle_refl Qle_trans
    (λ y best, Qlt_bool_true best y) (λ y best, Qlt_bool_false best y)
    ((λ n, (n, value n)) <$> input_nodes).*2) as (m & -> & Hm & Hmax).
  { by destruct input_nodes. }
  simpl.
  rewrite <- list_fmap_compose in Hm, Hmax.
  apply list_elem_of_fmap in Hm as (n0 & Hm & Hn0). simpl in Hm.
  assert ((filter (λ e : node * Q, Qeq_bool e.2 m = true)
             ((λ n, (n, value n)) <$> input_nodes)).*1 =
          filter (λ x, Qeq_bool (value x) m = true) input_nodes) as ->
    by exact (filter_fmap_fst value (λ v, Qeq_bool v m = true) input_nodes).
  set (candidates := filter (λ x, Qeq_bool (value x) m = true) input_nodes).
  assert (∀ n, n ∈ candidates ↔ gini_maximal tree weight total input_nodes n)
    as Hcandidates.
  { intros n. unfold candidates, gini_maximal.
    rewrite list_elem_of_filter, Forall_forall, Qeq_bool_iff. fold value.
    split.
    - intros [Heq Hn]. split; [done|]. intros x Hx. rewrite Heq.
      apply Hmax. by apply (list_elem_of_fmap_2 (λ n, value n)).
    - intros [Hn Hall]. split; [|done]. apply Qle_antisym.
      + apply Hmax. by apply (list_elem_of_fmap_2 (λ n, value n)).
      + rewrite Hm. by apply Hall. }
  assert (n0 ∈ candidates) as Hn0c.
  { unfold candidates. rewrite list_elem_of_filter, Qeq_bool_iff.
    split; [by rewrite Hm|done]. }
  destruct (decide (1 < length candidates)%nat) as [Hlen|Hlen].
  - destruct (first_best_spec (λ y best : node * nat, (y.2 <? best.2)%nat)
      (λ a b, (b.2 ≤ a.2)%nat)
      (λ x, le_n _) (λ x y z H1 H2, Nat.le_trans _ _ _ H2 H1)
      (λ y best H, Nat.lt_le_incl _ _ (proj1 (Nat.ltb_lt _ _) H))
      (λ y best H, proj1 (Nat.ltb_ge _ _) H)
      ((λ n, (n, tree_len (subtree tree n))) <$> candidates))
      as ([sel size] & -> & Hsel & Hmin).
    { destruct candidates; [simpl in Hlen; lia|done]. }
    apply list_elem_of_fmap in Hsel as (sel' & [= -> ->] & Hsel).
    exists sel'. simpl. split; [done|]. split; [by apply Hcandidates|].
    intros other Hother%Hcandidates.
    apply (Hmin (other, tree_len (subtree tree other))).
    by apply (list_elem_of_fmap_2 (λ n, (n, tree_len (subtree tree n)))).
  - destruct candidates as [|sel [|sel' l]] eqn:E.
    + by apply elem_of_nil in Hn0c.
    + exists sel. split; [done|]. split.
      * apply Hcandidates. left.
      * intros other Hother%Hcandidates.
        by apply list_elem_of_singleton in Hother as ->.
    + simpl in Hlen. lia.
Qed.



(** C4, as the code has it: with a zero total weight, when some input edge
    of the current node has a response edge, both selectors raise the
    [ZeroDivisionError] of the division [x / total_weight]. *)
Theorem selectors_zero_total (tree : ModelTree) (cur : node)
    (weight : weight_function) (input_nodes : list node)
    (input_node output_node : node) :
  total_weight_at tree weight cur = 0%Z →
  tree_getitem tree cur = Ok input_nodes →
  input_node ∈ input_nodes →
  output_node ∈ successors tree input_node →
  gini_selector tree cur weight = Raise ZeroDivisionError ∧
  entropy_selector tree cur weight = Raise ZeroDivisionError.
Proof.
  intros Htotal Hget Hinput Houtput.
  pose proof Hget as [_ Hsucc]%tree_getitem_Ok.
  assert (∀ x, x ∈ input_nodes → x ∈ node_names tree) as Hnodes.
  { intros x Hx. rewrite Hsucc in Hx. by eapply successors_node. }
  split.
  - unfold gini_selector. fold (total_weight_at tree weight cur).
    rewrite Htotal, Hget. simpl.
    rewrite (comprehension_Raise _ ZeroDivisionError); [done| |].
    + intros x Hx. rewrite gini_impurity_zero by auto.
      destruct (successors tree x); simpl; eauto.
    + exists input_node. split; [done|].
      rewrite gini_impurity_zero by auto.
      destruct (successors tree input_node); [|done].
      by apply elem_of_nil in Houtput.
  - unfold entropy_selector. fold (total_weight_at tree weight cur).
    rewrite Htotal, Hget. simpl.
    rewrite (comprehension_Raise _ ZeroDivisionError); [done| |].
    + intros x Hx. rewrite entropy_metric_zero by auto.
      destruct (successors tree x); simpl; eauto.
    + exists input_node. split; [done|].
      rewrite entropy_metric_zero by auto.
      destruct (successors tree input_node); [|done].
      by apply elem_of_nil in Houtput.
Qed.

Lemma selectors_zero_total_witness :
  gini_selector three_inputs [] model_weight_count = Raise ZeroDivisionError ∧
  entropy_selector three_inputs [] model_weight_count = Raise ZeroDivisionError.
Proof.
  apply (selectors_zero_total three_inputs [] model_weight_count
    [["A"]; ["B"]; ["C"]] ["A"] ["A"; "0"]).
  - vm_compute. reflexivity.
  - vm_compute. reflexivity.
  - by_evaluation.
  - by_evaluation.
Defined.

(** C4 as stated fails: with a zero total weight the Gini selector returns
    an input edge when no input edge has a response, and otherwise raises
    the error of the division itself. *)
Lemma zero_total_without_dedicated_error :
  total_weight_at unanswered_tree model_weight_count [] = 0%Z ∧
  gini_selector unanswered_tree [] model_weight_count = Ok ["A"] ∧
  total_weight_at three_inputs model_weight_count [] = 0%Z ∧
  gini_selector three_inputs [] model_weight_count = Raise ZeroDivisionError.
Proof. repeat split; vm_compute; reflexivity. Qed.

(** ** Gini impurity and entropy *)

Lemma ln_quotient (x y : R) :
  (0 < x)%R → (0 < y)%R → ln (x / y) = (ln x - ln y)%R.
Proof.
  intros Hx Hy. unfold Rdiv.
  rewrite ln_mult; [|done|by apply Rinv_0_lt_compat].
  rewrite ln_Rinv by done. lra.
Qed.

(** [5·ln 5 < 3·ln 3 + 4·ln 4], since [5⁵ = 3125 < 6912 = 3³·4⁴]. *)
Lemma ln_5_3_4 : (5 * ln 5 < 3 * ln 3 + 4 * ln 4)%R.
Proof.
  pose proof (ln_increasing (5 ^ 5) (3 ^ 3 * 4 ^ 4)) as H.
  rewrite ln_mult, !ln_pow in H by (try apply pow_lt; lra).
  simpl INR in H. lra.
Qed.

(** A 3/4 split has less entropy than a 5/1/1 split. *)
Lemma entropy_split_lt :
  (-1 * (0 + 3 / 7 * ln (3 / 7) + 4 / 7 * ln (4 / 7)) <
   -1 * (0 + 5 / 7 * ln (5 / 7) + 1 / 7 * ln (1 / 7) + 1 / 7 * ln (1 / 7)))%R.
Proof.
  rewrite !ln_quotient by lra. rewrite ln_1.
  pose proof ln_5_3_4. lra.
Qed.

Lemma split_tree_entropy :
  (entropy_value split_tree model_weight_equal 7 ["A"] <
   entropy_value split_tree model_weight_equal 7 ["B"])%R.
Proof.
  unfold entropy_value.
  replace (weights_of split_tree model_weight_equal ["A"]) with [3%Z; 4%Z]
    by (vm_compute; reflexivity).
  replace (weights_of split_tree model_weight_equal ["B"]) with [5%Z; 1%Z; 1%Z]
    by (vm_compute; reflexivity).
  cbn [fmap list_fmap sum_R foldl]. exact entropy_split_lt.
Qed.



Lemma coin_tree_entropy :
  (entropy_value coin_tree model_weight_equal
     (total_weight_at coin_tree model_weight_equal []) ["B"] <
   entropy_value coin_tree model_weight_equal
     (total_weight_at coin_tree model_weight_equal []) ["A"])%R.
Proof.
  replace (total_weight_at coin_tree model_weight_equal []) with 2%Z
    by (vm_compute; reflexivity).
  unfold entropy_value.
  replace (weights_of coin_tree model_weight_equal ["A"]) with [1%Z; 1%Z]
    by (vm_compute; reflexivity).
  replace (weights_of coin_tree model_weight_equal ["B"]) with [2%Z]
    by (vm_compute; reflexivity).
  cbn [fmap list_fmap sum_R foldl].
  replace (2 / 2)%R with 1%R by lra.
  rewrite ln_1, ln_quotient by lra. rewrite ln_1.
  pose proof ln_lt_2. lra.
Qed.


(** ** The selectors return input edges *)

Lemma always_first_selects_children : selects_children always_first_selector.
Proof.
  intros tree cur weight send_node. unfold always_first_selector.
  destruct (tree_getitem tree cur) as [l|e] eqn:Hget; [|done]. simpl.
  apply tree_getitem_Ok in Hget as [_ ->].
  destruct (successors tree cur) as [|first l] eqn:E; [done|].
  intros [= <-]. left.
Qed.

Lemma random_selects_children (choice : list node → nat) :
  selects_children (random_selector choice).
Proof.
  intros tree cur weight send_node. unfold random_selector.
  destruct (tree_getitem tree cur) as [l|e] eqn:Hget; [|done]. simpl.
  apply tree_getitem_Ok in Hget as [_ ->].
  destruct (_ !! _) as [chosen|] eqn:E; [|done].
  intros [= <-]. by eapply list_elem_of_lookup_2.
Qed.

Lemma first_best_elem {A} (better : A → A → bool) (l : list A) (x : A) :
  first_best better l = Ok x → x ∈ l.
Proof.
  destruct l as [|a l]; [done|]. intros Hx.
  destruct (first_best_spec better (λ _ _, True) (λ _, I) (λ _ _ _ _ _, I)
    (λ _ _ _, I) (λ _ _ _, I) (a :: l)) as (y & Hy & Hin & _); [done|].
  congruence.
Qed.

Lemma comprehension_fst {A B} (g : A → result B) (l : list A)
    (l' : list (A * B)) :
  comprehension (λ x, v ← g x ;;; Ok (x, v)) l = Ok l' → l'.*1 = l.
Proof.
  revert l'. induction l as [|a l IH]; intros l'; simpl.
  - by intros [= <-].
  - destruct (g a) as [v|e]; [|done]. simpl.
    destruct (comprehension _ l) as [vs|e]; [|done]. simpl.
    intros [= <-]. rewrite fmap_cons. simpl. f_equal. by apply IH.
Qed.

Lemma gini_selects_children : selects_children gini_selector.
Proof.
  intros tree cur weight send_node. unfold gini_selector.
  destruct (tree_getitem tree cur) as [input_nodes|e] eqn:Hget; [|done].
  apply tree_getitem_Ok in Hget as [_ ->]. simpl.
  destruct (comprehension _ (successors tree cur)) as [impurities|e] eqn:Hc;
    [|done].
  apply comprehension_fst in Hc. simpl.
  destruct (first_best _ impurities.*2) as [m|e]; [|done]. simpl.
  set (candidates := (filter _ impurities).*1).
  assert (∀ x, x ∈ candidates → x ∈ successors tree cur) as Hsub.
  { intros x (e & -> & [_ He]%list_elem_of_filter)%list_elem_of_fmap.
    rewrite <- Hc. by apply list_elem_of_fmap_2. }
  case_decide.
  - destruct (first_best _ _) as [selected|e] eqn:Hbest; [|done]. simpl.
    intros [= <-]. apply first_best_elem in Hbest.
    apply list_elem_of_fmap in Hbest as (n & -> & Hn). by apply Hsub.
  - destruct candidates as [|selected l]; [done|].
    intros [= <-]. apply Hsub. left.
Qed.

Lemma entropy_selects_children : selects_children entropy_selector.
Proof.
  intros tree cur weight send_node. unfold entropy_selector.
  destruct (tree_getitem tree cur) as [input_nodes|e] eqn:Hget; [|done].
  apply tree_getitem_Ok in Hget as [_ ->]. simpl.
  destruct (comprehension _ (successors tree cur)) as [input_info|e] eqn:Hc;
    [|done].
  apply comprehension_fst in Hc. simpl.
  destruct (first_best _ input_info) as [best|e] eqn:Hbest; [|done]. simpl.
  intros [= <-]. apply first_best_elem in Hbest.
  rewrite <- Hc. by apply list_elem_of_fmap_2.
Qed.

(** * The benchmark connector *)

(** C8: at a position where some response child's subtree contains the
    target, [send] of the benchmark connector appends the input token and the
    token of one response branch to its cursor and to [messages], the branch
    is the first child (in the order of the tree) whose subtree contains the
    target, and [send] returns the token of that branch. *)
Theorem BenchmarkConnector_send_replays (tree : ModelTree)
    (self : BenchmarkConnector) (message : token) (children : list node)
    (child : node) :
  tree_getitem tree (current_node self ++ [message]) = Ok children →
  child ∈ children →
  target self ∈ tree_models (subtree tree child) →
  ∃ output,
    let branch := current_node self ++ [message; output] in
    BenchmarkConnector_send tree self message =
      (Ok (Some output),
       {| target := target self;
          messages := messages self ++ [message; output];
          current_node := branch |}) ∧
    find (λ neighbor,
            bool_decide (target self ∈ tree_models (subtree tree neighbor)))
         children = Some branch ∧
    branch ∈ children ∧
    target self ∈ tree_models (subtree tree branch).
Proof.
  intros Hget Hin Htarget.
  destruct (find (λ neighbor,
    bool_decide (target self ∈ tree_models (subtree tree neighbor))) children)
    as [branch|] eqn:Hfind.
  - apply find_some in Hfind as Hsome. destruct Hsome as [Hb Ht].
    apply list_elem_of_In in Hb. apply bool_decide_eq_true in Ht.
    pose proof Hget as [_ ->]%tree_getitem_Ok.
    destruct (successors_last _ _ _ Hb) as (output & Hlast & Hbranch).
    exists output. simpl.
    assert (branch = current_node self ++ [message; output]) as Hb'.
    { rewrite Hbranch. by rewrite <- app_assoc. }
    unfold BenchmarkConnector_send. simpl. rewrite Hget, Hfind, Hlast.
    rewrite <- !app_assoc. simpl. rewrite <- Hb'. done.
  - exfalso. apply list_elem_of_In in Hin.
    pose proof (find_none _ _ Hfind _ Hin) as Hn. simpl in Hn.
    by apply bool_decide_eq_false in Hn.
Qed.

Lemma BenchmarkConnector_send_replays_witness :
  ∃ output,
    BenchmarkConnector_send three_inputs
      {| target := "m2"; messages := []; current_node := [] |} "A" =
      (Ok (Some output),
       {| target := "m2"; messages := ["A"; output];
          current_node := ["A"; output] |}).
Proof.
  destruct (BenchmarkConnector_send_replays three_inputs
    {| target := "m2"; messages := []; current_node := [] |} "A"
    [["A"; "0"]; ["A"; "1"]] ["A"; "1"]) as (output & H & _).
  - vm_compute. reflexivity.
  - by_evaluation.
  - by_evaluation.
  - exists output. exact H.
Defined.

(** * Descent and the identification loop *)

Lemma send_calls_log (tree : ModelTree) (c c1 : Connector) (message : token)
    (r : result (option token)) :
  send tree c message = (r, c1) →
  calls c1 = calls c ++ [CallSend message (response_of r)].
Proof.
  unfold send. destruct (object c) as [b|a].
  - destruct (BenchmarkConnector_send tree b message). by intros [= <- <-].
  - destruct (TLSAttackerConnector_send a message). by intros [= <- <-].
Qed.

(** What one iteration of a descent can do, case by case. *)
Lemma descent_step_cases (tree : ModelTree) (select : selector)
    (weight : weight_function) (lvs : list node) (cur : node)
    (c c1 : Connector) (r : result step) :
  descent_step tree select weight lvs cur c = (r, c1) →
  (c1 = c ∧ ∃ e, r = Raise e) ∨
  ∃ send_node message,
    select tree cur weight = Ok send_node ∧
    last send_node = Some message ∧
    ∃ r', send tree c message = (r', c1) ∧
      match r' with
      | Raise e => r = Raise e
      | Ok None => r = Ok Absent
      | Ok (Some response) =>
          let response_node := send_node ++ [response] in
          if decide (response_node ∈ node_names tree)
          then if decide (response_node ∈ lvs)
               then r = Ok (Leaf response_node)
               else r = Ok (Inner response_node)
          else r = Ok Absent
      end.
Proof.
  unfold descent_step.
  destruct (select tree cur weight) as [send_node|e] eqn:Hsel;
    [|intros [= <- <-]; eauto].
  destruct (last send_node) as [message|] eqn:Hlast;
    [|intros [= <- <-]; eauto].
  destruct (send tree c message) as [r' c'] eqn:Hsend.
  intros H. right. exists send_node, message. do 2 (split; [done|]).
  exists r'. destruct r' as [[response|]|e].
  - unfold tree_getitem in H. simpl.
    destruct (decide (send_node ++ [response] ∈ node_names tree)) as [Hin|Hin].
    + rewrite (decide_True _ _ Hin) in H.
      destruct (decide (send_node ++ [response] ∈ lvs));
        injection H as <- <-; done.
    + rewrite (decide_False _ _ Hin) in H. injection H as <- <-; done.
  - injection H as <- <-; done.
  - injection H as <- <-; done.
Qed.

Lemma after_steps_loop (j n : nat) (tree : ModelTree) (select : selector)
    (weight : weight_function) (lvs : list node) (cur cur' : node)
    (c c' : Connector) :
  after_steps j tree select weight lvs cur c = Some (cur', c') →
  descent_loop (j + n) tree select weight lvs cur c =
  descent_loop n tree select weight lvs cur' c'.
Proof.
  revert cur c. induction j as [|j IH]; intros cur c; simpl.
  - by intros [= -> ->].
  - destruct (descent_step tree select weight lvs cur c) as [[[| |m]|] c2];
      try done. apply IH.
Qed.

Lemma after_rounds_loop (condense : ModelTree → ModelTree) (select : selector)
    (weight : weight_function) (k n fuel : nat) (tree0 tree : ModelTree)
    (c0 c : Connector) :
  after_rounds condense select weight k fuel tree0 c0 = Some (tree, c) →
  identify_loop condense select weight (k + n) fuel tree0 c0 =
  identify_loop condense select weight n fuel tree c.
Proof.
  revert tree0 c0. induction k as [|k IH]; intros tree0 c0; simpl.
  - by intros [= -> ->].
  - destruct (identify_round condense select weight fuel tree0 c0)
      as [[[[]|] c2]|]; try done. apply IH.
Qed.

(** A descent that returns a node returns a non-empty tuple, the name of a
    node of the tree. *)
Lemma descent_loop_node (fuel : nat) (tree : ModelTree) (select : selector)
    (weight : weight_function) (lvs : list node) (cur leaf_node : node)
    (c c1 : Connector) :
  descent_loop fuel tree select weight lvs cur c = Some (Ok (Some leaf_node), c1) →
  leaf_node ≠ [] ∧ leaf_node ∈ node_names tree.
Proof.
  revert cur c. induction fuel as [|fuel IH]; intros cur c; simpl; [done|].
  destruct (descent_step tree select weight lvs cur c) as [r c2] eqn:Hstep.
  apply descent_step_cases in Hstep
    as [[_ [e ->]]|(send_node & message & _ & _ & r' & _ & Hr)]; [done|].
  destruct r' as [[response|]|e]; simpl in Hr.
  - destruct (decide (send_node ++ [response] ∈ node_names tree)) as [Hin|];
      [|by subst r].
    destruct (decide (send_node ++ [response] ∈ lvs)); subst r.
    + intros [= <- <-]. split; [|done]. by destruct send_node.
    + apply IH.
  - by subst r.
  - by subst r.
Qed.

(** An absent response path ends the descent with [None]. *)
Lemma descent_absent (j fuel : nat) (tree : ModelTree) (select : selector)
    (weight : weight_function) (cur : node) (c c' c1 : Connector) :
  after_steps j tree select weight (leaves tree) [] c = Some (cur, c') →
  descent_step tree select weight (leaves tree) cur c' = (Ok Absent, c1) →
  (j < fuel)%nat →
  descent fuel tree select weight c = Some (Ok None, c1).
Proof.
  intros Hsteps Hstep Hfuel. unfold descent.
  replace fuel with (j + S (fuel - S j))%nat by lia.
  rewrite (after_steps_loop _ _ _ _ _ _ _ _ _ _ Hsteps). simpl.
  by rewrite Hstep.
Qed.

(** ** Fuel

    More fuel does not change what a loop returns, and a descent with a
    selector that returns input edges needs no more iterations than the
    longest path of the tree has tokens. *)

Lemma descent_loop_mono (fuel fuel' : nat) (tree : ModelTree)
    (select : selector) (weight : weight_function) (lvs : list node)
    (cur : node) (c : Connector) (r : result (option node) * Connector) :
  descent_loop fuel tree select weight lvs cur c = Some r →
  (fuel ≤ fuel')%nat →
  descent_loop fuel' tree select weight lvs cur c = Some r.
Proof.
  revert fuel' cur c. induction fuel as [|fuel IH]; intros fuel' cur c; [done|].
  destruct fuel' as [|fuel']; [lia|]. simpl.
  destruct (descent_step tree select weight lvs cur c) as [[[| |n]|e] c2];
    try done.
  intros H Hle. apply IH; [done|lia].
Qed.

Lemma identify_round_mono (condense : ModelTree → ModelTree)
    (select : selector) (weight : weight_function) (fuel fuel' : nat)
    (tree : ModelTree) (c : Connector) (r : result round * Connector) :
  identify_round condense select weight fuel tree c = Some r →
  (fuel ≤ fuel')%nat →
  identify_round condense select weight fuel' tree c = Some r.
Proof.
  unfold identify_round, descent. intros H Hle.
  destruct (descent_loop fuel tree select weight (leaves tree) [] c)
    as [r'|] eqn:Hd; [|done].
  by rewrite (descent_loop_mono _ _ _ _ _ _ _ _ _ Hd Hle).
Qed.

Lemma identify_loop_mono (condense : ModelTree → ModelTree)
    (select : selector) (weight : weight_function)
    (rounds rounds' fuel fuel' : nat) (tree : ModelTree) (c : Connector)
    (r : result identify_value * Connector) :
  identify_loop condense select weight rounds fuel tree c = Some r →
  (rounds ≤ rounds')%nat → (fuel ≤ fuel')%nat →
  identify_loop condense select weight rounds' fuel' tree c = Some r.
Proof.
  revert rounds' tree c.
  induction rounds as [|rounds IH]; intros rounds' tree c; [done|].
  destruct rounds' as [|rounds']; [lia|]. simpl. intros H Hrounds Hfuel.
  destruct (identify_round condense select weight fuel tree c) as [r'|] eqn:Hr;
    [|done].
  rewrite (identify_round_mono _ _ _ _ _ _ _ _ Hr Hfuel).
  destruct r' as [[[lm v|lm tree']|e] c2]; try done.
  apply IH; [done|lia|done].
Qed.

Lemma descent_loop_terminates (fuel : nat) (tree : ModelTree)
    (select : selector) (weight : weight_function) (lvs : list node)
    (cur : node) (c : Connector) :
  selects_children select →
  (length cur ≤ max_list (length <$> node_names tree))%nat →
  (max_list (length <$> node_names tree) < length cur + 2 * fuel)%nat →
  is_Some (descent_loop fuel tree select weight lvs cur c).
Proof.
  intros Hchildren. revert cur c.
  induction fuel as [|fuel IH]; intros cur c Hcur Hfuel; [lia|]. simpl.
  destruct (descent_step tree select weight lvs cur c) as [r c2] eqn:Hstep.
  destruct r as [[| |n]|e]; try done.
  apply descent_step_cases in Hstep
    as [[_ [e ?]]|(send_node & message & Hsel & _ & r' & _ & Hr)]; [done|].
  apply Hchildren, successors_last in Hsel as (tok & _ & ->).
  destruct r' as [[response|]|e]; simpl in Hr; [|done|done].
  destruct (decide ((cur ++ [tok]) ++ [response] ∈ node_names tree)) as [Hin|];
    [|done].
  destruct (decide ((cur ++ [tok]) ++ [response] ∈ lvs)); [done|].
  injection Hr as ->.
  assert (length ((cur ++ [tok]) ++ [response]) = S (S (length cur))) as Hlen.
  { rewrite !length_app. simpl. lia. }
  apply IH.
  - apply max_list_elem_of_le. by apply list_elem_of_fmap_2.
  - lia.
Qed.

(** X8: the [while] loop of [descent] terminates: with a selector that
    returns input edges, a descent returns (a leaf, [None] or an exception)
    as soon as twice its fuel exceeds the length of the longest path of the
    tree. *)
Lemma descent_terminates (fuel : nat) (tree : ModelTree) (select : selector)
    (weight : weight_function) (c : Connector) :
  selects_children select →
  (max_list (length <$> node_names tree) < 2 * fuel)%nat →
  is_Some (descent fuel tree select weight c).
Proof.
  intros Hchildren Hfuel. apply descent_loop_terminates; simpl; [done|lia|lia].
Qed.

(** C5: when a descent produces a token path that is not in the tree, at
    whatever iteration of the loop and whatever depth of the descent,
    [identify] closes the connector and returns [None]; after the [send]
    that produced the path, [close] is the only call the connector
    receives. *)
Theorem identify_failed_descent (condense : ModelTree → ModelTree)
    (select : selector) (weight : weight_function) (k j rounds fuel : nat)
    (tree0 tree : ModelTree) (c0 c c' c1 : Connector)
    (cur send_node : node) (message response : token) :
  after_rounds condense select weight k fuel tree0 c0 = Some (tree, c) →
  after_steps j tree select weight (leaves tree) [] c = Some (cur, c') →
  (j < fuel)%nat →
  select tree cur weight = Ok send_node →
  last send_node = Some message →
  send tree c' message = (Ok (Some response), c1) →
  send_node ++ [response] ∉ node_names tree →
  identify_loop condense select weight (k + S rounds) fuel tree0 c0 =
    Some (Ok NoMatch, close c1) ∧
  calls (close c1) = calls c' ++ [CallSend message (Some response); CallClose].
Proof.
  intros Hrounds Hsteps Hfuel Hsel Hlast Hsend Habsent. split.
  - rewrite (after_rounds_loop _ _ _ _ _ _ _ _ _ _ Hrounds). simpl.
    unfold identify_round.
    erewrite descent_absent; [done| exact Hsteps | | done].
    unfold descent_step. rewrite Hsel, Hlast, Hsend.
    unfold tree_getitem. by rewrite decide_False.
  - apply send_calls_log in Hsend. simpl. rewrite Hsend.
    by rewrite <- app_assoc.
Qed.

Lemma identify_failed_descent_witness :
  identify_loop condense_chains always_first_selector model_weight_equal
    (0 + 1) 1 three_inputs (live_connector (λ _, Ok "7")) =
    Some (Ok NoMatch,
          close (send three_inputs (live_connector (λ _, Ok "7")) "A").2).
Proof.
  refine (proj1 (identify_failed_descent condense_chains always_first_selector
    model_weight_equal 0 0 0 1 three_inputs three_inputs
    (live_connector (λ _, Ok "7")) (live_connector (λ _, Ok "7"))
    (live_connector (λ _, Ok "7")) _ [] ["A"] "A" "7" _ _ _ _ _ _ _)).
  - reflexivity.
  - reflexivity.
  - lia.
  - vm_compute. reflexivity.
  - reflexivity.
  - reflexivity.
  - by_evaluation.
Defined.

(** C6: when the tree is empty after pruning and condensing, at whatever
    iteration of the loop, [identify] closes the connector and returns the
    models of the leaf that the descent reached; with the benchmark
    connector it returns them together with [connector.messages]. *)
Theorem identify_empty_tree (condense : ModelTree → ModelTree)
    (select : selector) (weight : weight_function) (k rounds fuel : nat)
    (tree0 tree : ModelTree) (c0 c c1 : Connector) (leaf_node : node)
    (leaf_models : gset model) :
  after_rounds condense select weight k fuel tree0 c0 = Some (tree, c) →
  descent fuel tree select weight c = Some (Ok (Some leaf_node), c1) →
  node_models tree leaf_node = Ok leaf_models →
  tree_len (condense (prune_models tree (tree_models tree ∖ leaf_models))) = 0%nat →
  identify_loop condense select weight (k + S rounds) fuel tree0 c0 =
    Some (Ok match object c1 with
             | Benchmark b => ModelsAndMessages leaf_models (messages b)
             | TLSAttacker _ => Models leaf_models
             end,
          close c1).
Proof.
  intros Hrounds Hdescent Hmodels Hlen.
  rewrite (after_rounds_loop _ _ _ _ _ _ _ _ _ _ Hrounds). simpl.
  unfold identify_round. rewrite Hdescent.
  apply descent_loop_node in Hdescent as [Hne _].
  destruct leaf_node as [|tok leaf_node]; [done|].
  rewrite Hmodels. simpl. rewrite decide_True by done.
  unfold returned. simpl. done.
Qed.

Lemma identify_empty_tree_witness :
  ∃ c1,
    identify_loop condense_chains always_first_selector model_weight_equal
      1 1 three_inputs (benchmark_connector "m1") =
      Some (Ok (ModelsAndMessages {[ "m1" ]} ["A"; "0"]), close c1).
Proof.
  exists (send three_inputs (benchmark_connector "m1") "A").2.
  apply (identify_empty_tree condense_chains always_first_selector
    model_weight_equal 0 0 1 three_inputs three_inputs
    (benchmark_connector "m1") (benchmark_connector "m1")
    (send three_inputs (benchmark_connector "m1") "A").2
    ["A"; "0"] {[ "m1" ]}).
  - reflexivity.
  - vm_compute. reflexivity.
  - vm_compute. reflexivity.
  - vm_compute. reflexivity.
Defined.

(** A run of one round: the simulated target [m1] answers ["0"] to ["A"],
    the leaf has the models [{m1}], and the loop ends with them. *)
Example single_round :
  identify condense_chains always_first_selector model_weight_equal 1 1
    (λ _, Raise OSError) single_input "m1" true =
  Some (Ok (ModelsAndMessages {[ "m1" ]} ["A"; "0"]),
        {| object := Benchmark {| target := "m1"; messages := ["A"; "0"];
                                  current_node := ["A"; "0"] |};
           calls := [CallSend "A" (Some "0"); CallClose] |}).
Proof. vm_compute. reflexivity. Qed.

(** A run of two rounds: the first leaf has the models [{m2, m3}], the
    connector is reset once, and the second round ends with [{m2}]. *)
Example two_rounds :
  identify condense_chains gini_selector model_weight_equal 2 1
    (λ _, Raise OSError) three_inputs "m2" true =
  Some (Ok (ModelsAndMessages {[ "m2" ]} ["A"; "1"; "RESET"; ""; "B"; "0"]),
        after_second_round).
Proof. vm_compute. reflexivity. Qed.

(** ** Closing the connector *)

Lemma descent_step_calls (tree : ModelTree) (select : selector)
    (weight : weight_function) (lvs : list node) (cur : node)
    (c c1 : Connector) (r : result step) :
  descent_step tree select weight lvs cur c = (r, c1) →
  ∃ l, calls c1 = calls c ++ l ∧ Forall is_send l.
Proof.
  intros [[-> _]|(send_node & message & _ & _ & r' & Hsend & _)]%descent_step_cases.
  - exists []. by rewrite app_nil_r.
  - apply send_calls_log in Hsend. eexists. split; [done|].
    by repeat constructor.
Qed.

Lemma descent_loop_calls (fuel : nat) (tree : ModelTree) (select : selector)
    (weight : weight_function) (lvs : list node) (cur : node)
    (c c1 : Connector) (r : result (option node)) :
  descent_loop fuel tree select weight lvs cur c = Some (r, c1) →
  ∃ l, calls c1 = calls c ++ l ∧ Forall is_send l.
Proof.
  revert cur c. induction fuel as [|fuel IH]; intros cur c; simpl; [done|].
  destruct (descent_step tree select weight lvs cur c) as [s c2] eqn:Hstep.
  apply descent_step_calls in Hstep as (l & Hl & Hsend).
  destruct s as [[| |n]|e].
  - intros [= <- <-]. eauto.
  - intros [= <- <-]. eauto.
  - intros (l' & Hl' & Hsend')%IH. exists (l ++ l'). split.
    + by rewrite Hl', Hl, app_assoc.
    + by apply Forall_app.
  - intros [= <- <-]. eauto.
Qed.

Lemma reset_calls_log (tree : ModelTree) (c c1 : Connector) (r : result ()) :
  reset tree c = (r, c1) →
  ∃ l, calls c1 = calls c ++ CallReset :: l ∧ Forall is_send l.
Proof.
  unfold reset. destruct (object c) as [b|a].
  - intros [= <- <-]. exists []. done.
  - destruct (send tree _ "RESET") as [r' c'] eqn:Hsend.
    intros [= <- <-]. apply send_calls_log in Hsend. simpl in Hsend.
    eexists [_]. rewrite Hsend, <- app_assoc. split; [done|].
    by repeat constructor.
Qed.

Lemma not_close_sends (l : list call) : Forall is_send l → CallClose ∉ l.
Proof.
  intros H Hin. rewrite Forall_forall in H. by apply H in Hin.
Qed.

(** What one iteration of the loop does to the connector. *)
Lemma identify_round_calls (condense : ModelTree → ModelTree)
    (select : selector) (weight : weight_function) (fuel : nat)
    (tree : ModelTree) (c c1 : Connector) (r : result round) :
  identify_round condense select weight fuel tree c = Some (r, c1) →
  ∃ l, (CallClose ∉ l) ∧
    match r with
    | Ok (Return _ _) => calls c1 = calls c ++ l ++ [CallClose]
    | _ => calls c1 = calls c ++ l
    end.
Proof.
  unfold identify_round.
  destruct (descent fuel tree select weight c) as [[r' c2]|] eqn:Hd; [|done].
  apply descent_loop_calls in Hd as (l & Hl & Hsends).
  apply not_close_sends in Hsends.
  assert (∀ leaf_models v,
    Some (Ok (Return leaf_models v), close c2) = Some (r, c1) →
    ∃ l, (CallClose ∉ l) ∧
      match r with
      | Ok (Return _ _) => calls c1 = calls c ++ l ++ [CallClose]
      | _ => calls c1 = calls c ++ l
      end) as Hclose.
  { intros ?? [= <- <-]. exists l. split; [done|]. simpl.
    by rewrite Hl, app_assoc. }
  destruct r' as [[[|tok leaf_node]|]|e]; try by apply Hclose.
  - destruct (node_models tree (tok :: leaf_node)) as [leaf_models|e].
    + simpl. case_decide; [by apply Hclose|].
      destruct (reset _ c2) as [[[]|e] c3] eqn:Hreset;
        apply reset_calls_log in Hreset as (l' & Hl' & Hs');
        apply not_close_sends in Hs';
        intros [= <- <-]; exists (l ++ CallReset :: l');
        (split; [|by rewrite Hl', Hl, app_assoc]);
        rewrite elem_of_app, elem_of_cons; intros [?|[?|?]]; done.
    + intros [= <- <-]. eauto.
  - intros [= <- <-]. eauto.
Qed.

(** C9, as the code has it: on the two paths on which [identify] returns
    (a result after the tree became empty, [None] after a failed descent)
    [close] is called exactly once, as the last call to the connector; when
    an exception leaves [identify], [close] has not been called. *)
Theorem identify_close (condense : ModelTree → ModelTree) (select : selector)
    (weight : weight_function) (rounds fuel : nat) (tree : ModelTree)
    (c c1 : Connector) (r : result identify_value) :
  identify_loop condense select weight rounds fuel tree c = Some (r, c1) →
  CallClose ∉ calls c →
  match r with
  | Ok _ => ∃ l, calls c1 = l ++ [CallClose] ∧ CallClose ∉ l
  | Raise _ => CallClose ∉ calls c1
  end.
Proof.
  revert tree c. induction rounds as [|rounds IH]; intros tree c; simpl; [done|].
  destruct (identify_round condense select weight fuel tree c)
    as [[r' c2]|] eqn:Hround; [|done].
  apply identify_round_calls in Hround as (l & Hl & Hcalls).
  destruct r' as [[lm v|lm tree']|e].
  - intros [= <- <-] Hc. exists (calls c ++ l). split.
    + by rewrite Hcalls, app_assoc.
    + rewrite elem_of_app. tauto.
  - intros H Hc. apply (IH _ _ H). rewrite Hcalls, elem_of_app. tauto.
  - intros [= <- <-] Hc. rewrite Hcalls, elem_of_app. tauto.
Qed.

Lemma identify_close_witness :
  match identify condense_chains always_first_selector model_weight_equal 2 1
          (λ _, Raise OSError) three_inputs "m2" true with
  | Some (Ok _, c1) => ∃ l, calls c1 = l ++ [CallClose] ∧ CallClose ∉ l
  | _ => False
  end.
Proof.
  destruct (identify condense_chains always_first_selector model_weight_equal
    2 1 (λ _, Raise OSError) three_inputs "m2" true) as [[[v|e] c1]|] eqn:H.
  - apply (identify_close _ _ _ _ _ _ _ _ _ H). apply not_elem_of_nil.
  - vm_compute in H. discriminate H.
  - vm_compute in H. discriminate H.
Defined.

(** C9 as stated fails: on the empty tree the selector raises [KeyError],
    the exception leaves [identify], and the live connector has not been
    closed. *)
Lemma identify_raise_not_closed :
  ∃ c1,
    identify condense_chains always_first_selector model_weight_equal 1 1
      (λ _, Ok "") empty_tree "localhost" false = Some (Raise KeyError, c1) ∧
    CallClose ∉ calls c1.
Proof.
  eexists. split; [vm_compute; reflexivity|].
  by_evaluation.
Qed.

(** ** The benchmark connector during a run *)

Lemma BenchmarkConnector_send_state (tree : ModelTree) (b b1 : BenchmarkConnector)
    (message : token) (r : result (option token)) :
  BenchmarkConnector_send tree b message = (r, b1) →
  target b1 = target b ∧
  messages b1 = messages b ++ transcript (CallSend message (response_of r)) ∧
  current_node b1 = current_node b ++ transcript (CallSend message (response_of r)).
Proof.
  unfold BenchmarkConnector_send. simpl.
  destruct (tree_getitem tree (current_node b ++ [message])) as [neighbors|e];
    [|by intros [= <- <-]].
  destruct (find _ neighbors) as [neighbor|]; [|by intros [= <- <-]].
  destruct (last neighbor) as [output|]; [|by intros [= <- <-]].
  intros [= <- <-]. simpl. by rewrite <- !app_assoc.
Qed.

Lemma send_benchmark (tree : ModelTree) (c c1 : Connector)
    (b : BenchmarkConnector) (message : token) (r : result (option token)) :
  object c = Benchmark b →
  send tree c message = (r, c1) →
  ∃ b1, object c1 = Benchmark b1 ∧
    BenchmarkConnector_send tree b message = (r, b1).
Proof.
  unfold send. intros ->.
  destruct (BenchmarkConnector_send tree b message) as [r' b1].
  intros [= <- <-]. eauto.
Qed.

Lemma send_transcribed (tree : ModelTree) (c c1 : Connector) (message : token)
    (r : result (option token)) :
  send tree c message = (r, c1) → transcribed c → transcribed c1.
Proof.
  intros Hsend (b & Hb & Hm).
  destruct (send_benchmark _ _ _ _ _ _ Hb Hsend) as (b1 & Hb1 & Hs).
  apply BenchmarkConnector_send_state in Hs as (_ & Hm1 & _).
  apply send_calls_log in Hsend.
  exists b1. split; [done|].
  rewrite Hm1, Hsend, Hm, fmap_app, concat_app. simpl. by rewrite app_nil_r.
Qed.

Lemma send_at_cursor (tree : ModelTree) (c c1 : Connector) (message : token)
    (r : result (option token)) (tg : model) (cur : node) :
  send tree c message = (r, c1) → at_cursor tg cur c →
  at_cursor tg (cur ++ transcript (CallSend message (response_of r))) c1.
Proof.
  intros Hsend (b & Hb & Ht & Hc).
  destruct (send_benchmark _ _ _ _ _ _ Hb Hsend) as (b1 & Hb1 & Hs).
  apply BenchmarkConnector_send_state in Hs as (Ht1 & _ & Hc1).
  exists b1. by rewrite Ht1, Hc1, Ht, Hc.
Qed.

Lemma descent_step_transcribed (tree : ModelTree) (select : selector)
    (weight : weight_function) (lvs : list node) (cur : node)
    (c c1 : Connector) (r : result step) :
  descent_step tree select weight lvs cur c = (r, c1) →
  transcribed c → transcribed c1.
Proof.
  intros [[-> _]|(send_node & message & _ & _ & r' & Hsend & _)]%descent_step_cases;
    [done|]. by eapply send_transcribed.
Qed.

Lemma descent_step_answered (tree : ModelTree) (select : selector)
    (weight : weight_function) (lvs : list node) (cur : node)
    (c c1 : Connector) (r : result step) :
  descent_step tree select weight lvs cur c = (r, c1) →
  r ≠ Ok Absent → (∀ e, r ≠ Raise e) →
  answered c → answered c1.
Proof.
  intros [[_ [e ->]]|(send_node & message & _ & _ & r' & Hsend & Hr)]%descent_step_cases
    Habs Hraise Hans.
  - by destruct (Hraise e).
  - apply send_calls_log in Hsend. unfold answered. rewrite Hsend.
    apply Forall_app. split; [done|]. constructor; [|constructor].
    destruct r' as [[response|]|e]; simpl; [done|done|].
    by destruct (Hraise e).
Qed.

Lemma descent_loop_transcribed (fuel : nat) (tree : ModelTree)
    (select : selector) (weight : weight_function) (lvs : list node)
    (cur : node) (c c1 : Connector) (r : result (option node)) :
  descent_loop fuel tree select weight lvs cur c = Some (r, c1) →
  transcribed c → transcribed c1.
Proof.
  revert cur c. induction fuel as [|fuel IH]; intros cur c; simpl; [done|].
  destruct (descent_step tree select weight lvs cur c) as [s c2] eqn:Hstep.
  intros H Hc. apply (descent_step_transcribed _ _ _ _ _ _ _ _ Hstep) in Hc.
  destruct s as [[| |n]|e]; try by injection H as <- <-.
  by eapply IH.
Qed.

Lemma descent_loop_answered (fuel : nat) (tree : ModelTree)
    (select : selector) (weight : weight_function) (lvs : list node)
    (cur leaf_node : node) (c c1 : Connector) :
  descent_loop fuel tree select weight lvs cur c = Some (Ok (Some leaf_node), c1) →
  answered c → answered c1.
Proof.
  revert cur c. induction fuel as [|fuel IH]; intros cur c; simpl; [done|].
  destruct (descent_step tree select weight lvs cur c) as [s c2] eqn:Hstep.
  intros H Hc.
  destruct s as [[| |n]|e]; try done;
    apply (descent_step_answered _ _ _ _ _ _ _ _ Hstep) in Hc; try done.
  - by injection H as _ <-.
  - by eapply IH.
Qed.

Lemma reset_transcribed (tree : ModelTree) (c c1 : Connector) (r : result ()) :
  reset tree c = (r, c1) → transcribed c →
  transcribed c1 ∧ (answered c → answered c1) ∧
  ∀ tg cur, at_cursor tg cur c → at_cursor tg [] c1.
Proof.
  intros Hreset (b & Hb & Hm). unfold reset in Hreset. rewrite Hb in Hreset.
  injection Hreset as <- <-. split; [|split].
  - eexists. split; [done|]. simpl.
    rewrite Hm, fmap_app, concat_app. simpl. done.
  - intros Hans. unfold answered. simpl. apply Forall_app. split; [done|].
    by repeat constructor.
  - intros tg cur (b' & Hb' & Ht & _). rewrite Hb in Hb'. injection Hb' as <-.
    eexists. done.
Qed.

Lemma close_transcribed (c : Connector) :
  transcribed c → transcribed (close c).
Proof.
  intros (b & Hb & Hm). exists b. split; [done|]. simpl.
  rewrite fmap_app, concat_app. simpl. by rewrite app_nil_r.
Qed.

Lemma close_answered (c : Connector) : answered c → answered (close c).
Proof.
  intros H. unfold answered. simpl. apply Forall_app. split; [done|].
  by repeat constructor.
Qed.

(** One iteration keeps the transcript; unless it ends in a failed descent
    every [send] was answered, and what it returns are the messages. *)
Lemma identify_round_transcribed (condense : ModelTree → ModelTree)
    (select : selector) (weight : weight_function) (fuel : nat)
    (tree : ModelTree) (c c1 : Connector) (r : round) :
  identify_round condense select weight fuel tree c = Some (Ok r, c1) →
  transcribed c → answered c →
  transcribed c1 ∧
  match r with
  | Return None v => v = NoMatch
  | Return (Some leaf_models) v => answered c1 ∧ v = returned c1 leaf_models
  | Again _ _ => answered c1
  end.
Proof.
  unfold identify_round.
  destruct (descent fuel tree select weight c) as [[r' c2]|] eqn:Hd; [|done].
  intros H Ht Ha.
  apply (descent_loop_transcribed _ _ _ _ _ _ _ _ _ Hd) in Ht.
  destruct r' as [[[|tok leaf_node]|]|e]; try done.
  - injection H as <- <-. split; [by apply close_transcribed|done].
  - apply (descent_loop_answered _ _ _ _ _ _ _ _ _ Hd) in Ha.
    destruct (node_models tree (tok :: leaf_node)) as [leaf_models|e]; [|done].
    simpl in H. case_decide.
    + injection H as <- <-.
      split; [by apply close_transcribed|].
      split; [by apply close_answered|done].
    + destruct (reset _ c2) as [[[]|e] c3] eqn:Hreset; [|done].
      injection H as <- <-.
      destruct (reset_transcribed _ _ _ _ Hreset Ht) as (? & ? & _). auto.
  - injection H as <- <-. split; [by apply close_transcribed|done].
Qed.

Lemma identify_loop_transcribed (condense : ModelTree → ModelTree)
    (select : selector) (weight : weight_function) (rounds fuel : nat)
    (tree : ModelTree) (c c1 : Connector) (leaf_models : gset model)
    (path : list token) :
  identify_loop condense select weight rounds fuel tree c =
    Some (Ok (ModelsAndMessages leaf_models path), c1) →
  transcribed c → answered c →
  path = concat (transcript <$> calls c1) ∧ answered c1.
Proof.
  revert tree c. induction rounds as [|rounds IH]; intros tree c; simpl; [done|].
  destruct (identify_round condense select weight fuel tree c)
    as [[[r'|e] c2]|] eqn:Hround; [|done|done].
  intros H Ht Ha.
  destruct (identify_round_transcribed _ _ _ _ _ _ _ _ Hround Ht Ha) as [Ht2 Hr].
  destruct r' as [[lm|] v|lm tree'].
  - injection H as -> <-. destruct Hr as [Ha2 Hv]. split; [|done].
    destruct Ht2 as (b & Hb & Hm). unfold returned in Hv. rewrite Hb in Hv.
    injection Hv as _ ->. done.
  - injection H as -> <-. done.
  - by eapply IH.
Qed.

(** ** Counting messages *)

Lemma count_resets_app (l1 l2 : list token) :
  count_resets (l1 ++ l2) = (count_resets l1 + count_resets l2)%nat.
Proof. unfold count_resets. by rewrite filter_app, length_app. Qed.

Lemma transcript_length (l : list call) :
  Forall (λ x, ∀ message, x ≠ CallSend message None) l →
  length (concat (transcript <$> l)) =
  (2 * (length (filter is_send l) + length (filter (λ x, x = CallReset) l)))%nat.
Proof.
  induction 1 as [|x l Hx _ IH]; [done|].
  rewrite fmap_cons, !filter_cons. simpl concat. rewrite length_app, IH.
  destruct x as [message [response|]| |]; simpl.
  - lia.
  - by destruct (Hx message).
  - lia.
  - lia.
Qed.

Lemma transcript_resets (l : list call) :
  count_resets (concat (transcript <$> l)) =
  (length (filter (λ x, x = CallReset) l) +
   count_resets (concat (transcript <$> filter is_send l)))%nat.
Proof.
  induction l as [|x l IH]; [done|].
  rewrite fmap_cons, concat_cons, count_resets_app, IH.
  destruct x as [message response| |].
  - rewrite (filter_cons_True is_send) by done.
    rewrite filter_cons_False by done.
    rewrite fmap_cons, concat_cons, count_resets_app. lia.
  - rewrite (filter_cons_False is_send) by (by intros []).
    rewrite filter_cons_True by done. done.
  - rewrite (filter_cons_False is_send) by (by intros []).
    rewrite filter_cons_False by done. done.
Qed.

(** C7, as the code has it: a benchmark run that reports metrics reports as
    [inputs] the number of [send] calls plus the number of [reset] calls
    (each reset adds the pair ["RESET", ""] to the messages), and as [resets]
    the number of [reset] calls plus the number of times the token ["RESET"]
    itself was sent or received. *)
Theorem benchmark_model_metrics (condense : ModelTree → ModelTree)
    (rounds fuel : nat) (tree : ModelTree) (model : model) (select : selector)
    (weight : weight_function) (m : metrics) (c : Connector) :
  benchmark_model condense rounds fuel tree model select weight = Some (Ok m, c) →
  inputs m = (send_calls c + reset_calls c)%nat ∧
  resets m = (reset_calls c + reset_tokens c)%nat.
Proof.
  unfold benchmark_model, identify.
  destruct (identify_loop _ _ _ _ _ _ _) as [[[[|ms|ms path]|e] c1]|] eqn:Hloop;
    try done.
  case_decide; [|done]. intros [= <- <-]. simpl.
  apply identify_loop_transcribed in Hloop as [-> Hans].
  - split.
    + unfold count_inputs, send_calls, reset_calls.
      rewrite transcript_length by done.
      rewrite Nat.mul_comm. by rewrite Nat.div_mul.
    + apply transcript_resets.
  - eexists. split; [done|done].
  - constructor.
Qed.

Lemma benchmark_model_metrics_witness :
  match benchmark_model condense_chains 2 1 three_inputs "m2"
          always_first_selector model_weight_equal with
  | Some (Ok m, c) =>
      inputs m = (send_calls c + reset_calls c)%nat ∧
      resets m = (reset_calls c + reset_tokens c)%nat
  | _ => False
  end.
Proof.
  destruct (benchmark_model condense_chains 2 1 three_inputs "m2"
    always_first_selector model_weight_equal) as [[[m|e] c]|] eqn:H.
  - exact (benchmark_model_metrics _ _ _ _ _ _ _ _ _ H).
  - vm_compute in H. discriminate H.
  - vm_compute in H. discriminate H.
Defined.

(** C7 as stated fails: in this run of two rounds, [send] is called twice
    and [reset] once, and the reported number of inputs is three. *)
Lemma benchmark_inputs_count_resets :
  ∃ m c,
    benchmark_model condense_chains 2 1 three_inputs "m2"
      always_first_selector model_weight_equal = Some (Ok m, c) ∧
    send_calls c = 2%nat ∧ reset_calls c = 1%nat ∧ inputs m = 3%nat ∧
    inputs m ≠ send_calls c.
Proof.
  eexists _, _. split; [vm_compute; reflexivity|].
  repeat split; try (vm_compute; reflexivity).
  vm_compute. discriminate.
Qed.

(** ** The cursor of the benchmark connector follows the descent *)

Lemma descent_step_at_cursor (tree : ModelTree) (select : selector)
    (weight : weight_function) (lvs : list node) (cur n : node)
    (c c1 : Connector) (tg : model) :
  selects_children select →
  at_cursor tg cur c →
  descent_step tree select weight lvs cur c = (Ok (Inner n), c1) →
  at_cursor tg n c1.
Proof.
  intros Hchildren Hcur [[_ [e ?]]|(send_node & message & Hsel & Hlast & r' & Hsend & Hr)]%descent_step_cases;
    [done|].
  apply Hchildren, successors_last in Hsel as (tok & Hlast' & ->).
  assert (tok = message) as -> by congruence.
  pose proof (send_at_cursor _ _ _ _ _ _ _ Hsend Hcur) as Hc1.
  destruct r' as [[response|]|e]; simpl in Hr; [|done|done].
  simpl in Hc1.
  destruct (decide ((cur ++ [message]) ++ [response] ∈ node_names tree));
    [|done].
  destruct (decide ((cur ++ [message]) ++ [response] ∈ lvs)); [done|].
  injection Hr as ->. by rewrite <- app_assoc.
Qed.

Lemma after_steps_at_cursor (j : nat) (tree : ModelTree) (select : selector)
    (weight : weight_function) (lvs : list node) (cur cur' : node)
    (c c' : Connector) (tg : model) :
  selects_children select →
  at_cursor tg cur c →
  after_steps j tree select weight lvs cur c = Some (cur', c') →
  at_cursor tg cur' c'.
Proof.
  intros Hchildren. revert cur c. induction j as [|j IH]; intros cur c Hcur; simpl.
  - by intros [= <- <-].
  - destruct (descent_step tree select weight lvs cur c) as [[[| |n]|] c2] eqn:Hstep;
      try done.
    apply IH. by eapply descent_step_at_cursor.
Qed.

Lemma descent_loop_benchmark (fuel : nat) (tree : ModelTree)
    (select : selector) (weight : weight_function) (lvs : list node)
    (cur : node) (c c1 : Connector) (r : result (option node)) (tg : model)
    (at_c : node) :
  at_cursor tg at_c c →
  descent_loop fuel tree select weight lvs cur c = Some (r, c1) →
  ∃ at_c1, at_cursor tg at_c1 c1.
Proof.
  revert cur c at_c. induction fuel as [|fuel IH]; intros cur c at_c Hc; simpl;
    [done|].
  destruct (descent_step tree select weight lvs cur c) as [s c2] eqn:Hstep.
  assert (∃ at_c2, at_cursor tg at_c2 c2) as [at_c2 Hc2].
  { apply descent_step_cases in Hstep
      as [[-> _]|(send_node & message & _ & _ & r' & Hsend & _)]; [eauto|].
    eexists. by eapply send_at_cursor. }
  destruct s as [[| |n]|e]; try (intros [= <- <-]; eauto).
  by apply (IH _ _ _ Hc2).
Qed.

Lemma reset_at_cursor (tree : ModelTree) (c c1 : Connector) (r : result ())
    (tg : model) (at_c : node) :
  at_cursor tg at_c c → reset tree c = (r, c1) → at_cursor tg [] c1.
Proof.
  intros (b & Hb & Ht & _). unfold reset. rewrite Hb.
  intros [= <- <-]. eexists. done.
Qed.

Lemma identify_round_at_cursor (condense : ModelTree → ModelTree)
    (select : selector) (weight : weight_function) (fuel : nat)
    (tree tree' : ModelTree) (c c1 : Connector) (leaf_models : gset model)
    (tg : model) (at_c : node) :
  at_cursor tg at_c c →
  identify_round condense select weight fuel tree c =
    Some (Ok (Again leaf_models tree'), c1) →
  at_cursor tg [] c1.
Proof.
  intros Hc. unfold identify_round.
  destruct (descent fuel tree select weight c) as [[r' c2]|] eqn:Hd; [|done].
  apply (descent_loop_benchmark _ _ _ _ _ _ _ _ _ _ _ Hc) in Hd as [at_c2 Hc2].
  destruct r' as [[[|tok leaf_node]|]|e]; try done.
  destruct (node_models tree (tok :: leaf_node)) as [lm|e]; [|done].
  simpl. case_decide; [done|].
  destruct (reset _ c2) as [[[]|e] c3] eqn:Hreset; [|done].
  intros [= _ _ <-]. by eapply reset_at_cursor.
Qed.

Lemma after_rounds_at_cursor (condense : ModelTree → ModelTree)
    (select : selector) (weight : weight_function) (k fuel : nat)
    (tree0 tree : ModelTree) (c0 c : Connector) (tg : model) :
  at_cursor tg [] c0 →
  after_rounds condense select weight k fuel tree0 c0 = Some (tree, c) →
  at_cursor tg [] c.
Proof.
  revert tree0 c0. induction k as [|k IH]; intros tree0 c0 Hc0; simpl.
  - by intros [= <- <-].
  - destruct (identify_round condense select weight fuel tree0 c0)
      as [[[[|lm tree1]|] c2]|] eqn:Hround; try done.
    apply IH. by eapply identify_round_at_cursor.
Qed.

Lemma find_none_intro {A} (f : A → bool) (l : list A) :
  (∀ x, x ∈ l → f x = false) → find f l = None.
Proof.
  intros H. destruct (find f l) as [x|] eqn:E; [|done].
  apply find_some in E as [Hin Hx]. apply list_elem_of_In in Hin.
  rewrite (H _ Hin) in Hx. done.
Qed.



(** ** The candidate set shrinks *)

Lemma descent_loop_position (fuel : nat) (tree : ModelTree) (select : selector)
    (weight : weight_function) (lvs : list node) (cur leaf_node : node)
    (c c1 : Connector) :
  selects_children select →
  Nat.even (length cur) = true →
  descent_loop fuel tree select weight lvs cur c = Some (Ok (Some leaf_node), c1) →
  leaf_node ∈ node_names tree ∧ response_position leaf_node.
Proof.
  intros Hchildren. revert cur c.
  induction fuel as [|fuel IH]; intros cur c Heven; simpl; [done|].
  destruct (descent_step tree select weight lvs cur c) as [r c2] eqn:Hstep.
  apply descent_step_cases in Hstep
    as [[_ [e ->]]|(send_node & message & Hsel & _ & r' & _ & Hr)]; [done|].
  apply Hchildren, successors_last in Hsel as (tok & _ & ->).
  destruct r' as [[response|]|e]; simpl in Hr; [|by subst r|by subst r].
  assert (Nat.even (length ((cur ++ [tok]) ++ [response])) = true) as Heven'.
  { rewrite !length_app. simpl.
    replace (length cur + 1 + 1)%nat with (S (S (length cur))) by lia. done. }
  destruct (decide ((cur ++ [tok]) ++ [response] ∈ node_names tree)) as [Hin|];
    [|by subst r].
  destruct (decide ((cur ++ [tok]) ++ [response] ∈ lvs)); subst r.
  - intros [= <- <-]. split; [done|]. split; [|done].
    by destruct (cur ++ [tok]).
  - by apply IH.
Qed.

Lemma identify_round_recorded (condense : ModelTree → ModelTree)
    (select : selector) (weight : weight_function) (fuel : nat)
    (tree : ModelTree) (c c1 : Connector) (r : round)
    (leaf_models : gset model) :
  identify_round condense select weight fuel tree c = Some (Ok r, c1) →
  recorded r = Some leaf_models →
  ∃ leaf_node c',
    descent fuel tree select weight c = Some (Ok (Some leaf_node), c') ∧
    node_models tree leaf_node = Ok leaf_models.
Proof.
  unfold identify_round.
  destruct (descent fuel tree select weight c) as [[r' c2]|]; [|done].
  destruct r' as [[[|tok leaf_node]|]|e]; try done;
    try by (intros [= <- <-]).
  destruct (node_models tree (tok :: leaf_node)) as [lm|e] eqn:Hlm; [|done].
  simpl. case_decide.
  - intros [= <- <-] [= <-]. by eexists _, _.
  - destruct (reset _ c2) as [[[]|e] c3]; [|done].
    intros [= <- <-] [= <-]. by eexists _, _.
Qed.

Lemma identify_round_again (condense : ModelTree → ModelTree)
    (select : selector) (weight : weight_function) (fuel : nat)
    (tree tree' : ModelTree) (c c1 : Connector) (leaf_models : gset model) :
  identify_round condense select weight fuel tree c =
    Some (Ok (Again leaf_models tree'), c1) →
  tree' = condense (prune_models tree (tree_models tree ∖ leaf_models)).
Proof.
  unfold identify_round.
  destruct (descent fuel tree select weight c) as [[r' c2]|]; [|done].
  destruct r' as [[[|tok leaf_node]|]|e]; try done.
  destruct (node_models tree (tok :: leaf_node)) as [lm|e]; [|done].
  simpl. case_decide; [done|].
  destruct (reset _ c2) as [[[]|e] c3]; [|done].
  by intros [= <- <- <-].
Qed.

Lemma NoDup_other `{EqDecision A} (l : list A) (x : A) :
  NoDup l → (2 ≤ length l)%nat → ∃ y, y ∈ l ∧ y ≠ x.
Proof.
  destruct l as [|a [|b l]]; simpl; [lia|lia|].
  intros Hnd _. apply NoDup_cons in Hnd as [Hab _].
  destruct (decide (a = x)) as [->|Hne].
  - exists b. split; [right; left|]. intros ->. apply Hab. left.
  - exists a. split; [left|done].
Qed.

Lemma condensed_branching (t : ModelTree) :
  condensed t → branching_responses t.
Proof.
  unfold condensed, branching_responses. intros H.
  eapply Forall_impl; [exact H|]. auto.
Qed.

(** A leaf that a descent reaches in a tree as the spec describes it has
    fewer models than the tree. *)
Lemma leaf_models_strict (t : ModelTree) (leaf_node : node) (ms : gset model) :
  parent_closed t → branching_responses t → inhabited t →
  responses_disjoint t →
  response_position leaf_node →
  (leaf_node, ms) ∈ tree_nodes t →
  ms ⊂ tree_models t.
Proof.
  intros Hparent Hcondensed Hinhabited Hdisjoint [Hne Heven] Hleaf.
  assert (leaf_node ∈ node_names t) as Hnode.
  { apply list_elem_of_fmap. by exists (leaf_node, ms). }
  destruct (exists_last Hne) as (p & r & ->).
  assert (p ∈ node_names t) as Hp.
  { unfold parent_closed in Hparent. rewrite Forall_forall in Hparent.
    destruct (Hparent _ Hnode) as [E|Hin].
    - by destruct p.
    - by rewrite removelast_last in Hin. }
  assert (p ++ [r] ∈ successors t p) as Hchild.
  { apply elem_of_successors. split; [|done]. apply is_child_spec. eauto. }
  unfold branching_responses in Hcondensed.
  rewrite Forall_forall in Hcondensed.
  destruct (Hcondensed _ Hp) as [E|Htwo].
  { rewrite length_app, Nat.add_1_r, Nat.even_succ in Heven. done. }
  { rewrite E in Hchild. by apply elem_of_nil in Hchild. }
  destruct (NoDup_other _ (p ++ [r]) (NoDup_successors t p) Htwo)
    as (s & Hs & Hsr).
  pose proof Hs as [_ Hsnode]%elem_of_successors.
  apply successors_last in Hs as (r' & _ & ->).
  apply list_elem_of_fmap in Hsnode as ([s' ms'] & Es & Hentry).
  simpl in Es. subst s'.
  unfold inhabited in Hinhabited. rewrite Forall_forall in Hinhabited.
  pose proof (Hinhabited _ Hentry) as Hms'. simpl in Hms'.
  apply set_choose_L in Hms' as [x Hx].
  unfold responses_disjoint in Hdisjoint. rewrite Forall_forall in Hdisjoint.
  pose proof (Hdisjoint _ Hleaf) as Hd. rewrite Forall_forall in Hd.
  pose proof (Hd _ Hentry) as Hd'. simpl in Hd'.
  assert (ms ## ms') as Hdisj.
  { apply Hd'.
    - done.
    - split; [by destruct p|]. by rewrite length_app in *.
    - by rewrite !removelast_last.
    - done. }
  split.
  - intros m Hm. apply elem_of_tree_models. by exists (p ++ [r], ms).
  - intros Hsub. apply (Hdisj x); [|done]. apply Hsub.
    apply elem_of_tree_models. by exists (p ++ [r'], ms').
Qed.



(** * Further properties *)

(** ** Weights *)

Lemma sum_Z_foldl (l : list Z) (acc : Z) :
  foldl Z.add acc l = (acc + sum_Z l)%Z.
Proof.
  unfold sum_Z. revert acc. induction l as [|x l IH]; intros acc; simpl.
  - lia.
  - rewrite (IH (acc + x)%Z), (IH (0 + x)%Z). lia.
Qed.

Lemma sum_Z_cons (x : Z) (l : list Z) : sum_Z (x :: l) = (x + sum_Z l)%Z.
Proof. unfold sum_Z at 1. simpl. by rewrite sum_Z_foldl. Qed.

(** X1: with the weight function [equal] the weight of a tree (or of the
    view of a subtree) is the number of its models. *)
Theorem tree_weight_equal (t : ModelTree) (mapping : model → list implementation) :
  _tree_weight t mapping model_weight_equal = Z.of_nat (size (tree_models t)).
Proof.
  unfold _tree_weight, size, set_size. simpl.
  induction (elements (tree_models t)) as [|m l IH]; [done|].
  rewrite fmap_cons, sum_Z_cons, IH. unfold model_weight_equal. simpl length. lia.
Qed.

Lemma implementation_weight_recent_bounds (version_ge : string → string → bool)
    (i : implementation) :
  (1 ≤ implementation_weight_recent version_ge i ≤ 25)%Z.
Proof.
  unfold implementation_weight_recent. destruct i as [name number].
  repeat match goal with |- context [if ?b then _ else _] => destruct b end; lia.
Qed.


(** ** Errors of the selectors *)

Lemma gini_zero_total (tree : ModelTree) (cur : node) (weight : weight_function)
    (input_node : node) :
  total_weight_at tree weight cur = 0%Z →
  cur ∈ node_names tree →
  input_node ∈ successors tree cur →
  successors tree input_node ≠ [] →
  gini_selector tree cur weight = Raise ZeroDivisionError.
Proof.
  intros Htotal Hcur Hinput Houtput.
  unfold gini_selector. fold (total_weight_at tree weight cur).
  unfold tree_getitem at 1. rewrite Htotal, decide_True by done. simpl.
  rewrite (comprehension_Raise _ ZeroDivisionError); [done| |].
  - intros x Hx. rewrite gini_impurity_zero by (by eapply successors_node).
    destruct (successors tree x); simpl; eauto.
  - exists input_node. split; [done|].
    rewrite gini_impurity_zero by (by eapply successors_node).
    by destruct (successors tree input_node).
Qed.

(** Once every impurity is computed, the Gini selector returns. *)
Lemma gini_selector_returns (tree : ModelTree) (cur : node)
    (weight : weight_function) (value : node → Q) :
  cur ∈ node_names tree →
  successors tree cur ≠ [] →
  (∀ n, n ∈ successors tree cur →
        gini_impurity tree weight (total_weight_at tree weight cur) n =
        Ok (value n)) →
  ∃ selected, gini_selector tree cur weight = Ok selected.
Proof.
  intros Hcur Hne Hvalue.
  unfold gini_selector. fold (total_weight_at tree weight cur).
  unfold tree_getitem at 1. rewrite decide_True by done. simpl.
  rewrite (comprehension_Ok _ (λ n, (n, value n))); last first.
  { intros n Hn. by rewrite Hvalue. }
  simpl.
  set (impurities := (λ n, (n, value n)) <$> successors tree cur).
  destruct (first_best (λ y best, Qlt_bool best y) impurities.*2)
    as [m|e] eqn:Hm.
  2: { unfold impurities in Hm. by destruct (successors tree cur). }
  simpl. apply first_best_elem in Hm.
  apply list_elem_of_fmap in Hm as (e & -> & He).
  set (candidates := (filter _ impurities).*1).
  assert (e.1 ∈ candidates) as Hcand.
  { apply list_elem_of_fmap_2, list_elem_of_filter. split; [|done].
    apply Qeq_bool_iff. reflexivity. }
  clearbody candidates.
  destruct candidates as [|a l]; [by apply elem_of_nil in Hcand|].
  case_decide; simpl; by eexists.
Qed.



Lemma entropy_terms_cases (total : Z) (l : list Z) :
  total ≠ 0%Z →
  comprehension (λ x, entropy_term x total) l = Raise ValueError ∨
  ∃ terms, comprehension (λ x, entropy_term x total) l = Ok terms.
Proof.
  intros Htotal. induction l as [|x l IH]; simpl; [eauto|].
  unfold entropy_term at 1 3. rewrite decide_False by done.
  case_decide; [|by left]. simpl.
  destruct IH as [->|[terms ->]]; simpl; eauto.
Qed.

Lemma entropy_metric_cases (tree : ModelTree) (weight : weight_function)
    (total : Z) (input_node : node) :
  total ≠ 0%Z → input_node ∈ node_names tree →
  entropy_metric tree weight total input_node = Raise ValueError ∨
  ∃ v, entropy_metric tree weight total input_node = Ok v.
Proof.
  intros Htotal Hnode. unfold entropy_metric.
  rewrite branch_weights_Ok by done. simpl.
  destruct (entropy_terms_cases total (weights_of tree weight input_node) Htotal)
    as [->|[terms ->]]; simpl; eauto.
Qed.

(** X4: a branch of weight zero under a non-zero total -- a response given
    only by models without implementations, with the weight [count] --
    makes the entropy selector raise the [ValueError] of [math.log], while
    the Gini selector returns an input edge. *)
Theorem entropy_rejects_zero_weight (tree : ModelTree) (cur : node)
    (weight : weight_function) (input_node : node) (x : Z) :
  total_weight_at tree weight cur ≠ 0%Z →
  cur ∈ node_names tree →
  input_node ∈ successors tree cur →
  x ∈ weights_of tree weight input_node →
  (x * total_weight_at tree weight cur ≤ 0)%Z →
  entropy_selector tree cur weight = Raise ValueError ∧
  ∃ selected, gini_selector tree cur weight = Ok selected.
Proof.
  intros Htotal Hcur Hinput Hx Hzero. split.
  - unfold entropy_selector. fold (total_weight_at tree weight cur).
    unfold tree_getitem at 1. rewrite decide_True by done. simpl.
    rewrite (comprehension_Raise _ ValueError); [done| |].
    + intros n Hn.
      destruct (entropy_metric_cases tree weight _ n Htotal) as [->|[v ->]];
        simpl; eauto. by eapply successors_node.
    + exists input_node. split; [done|].
      assert (entropy_metric tree weight (total_weight_at tree weight cur)
                input_node = Raise ValueError) as ->; [|done].
      unfold entropy_metric.
      rewrite branch_weights_Ok by (by eapply successors_node). simpl.
      rewrite (comprehension_Raise _ ValueError); [done| |].
      * intros y _. unfold entropy_term. rewrite decide_False by done.
        case_decide; eauto.
      * exists x. split; [done|]. unfold entropy_term.
        rewrite decide_False by done. rewrite decide_False by lia. done.
  - apply (gini_selector_returns tree cur weight
      (gini_value tree weight (total_weight_at tree weight cur))); [done| |].
    + intros E. rewrite E in Hinput. by apply elem_of_nil in Hinput.
    + intros n Hn. apply gini_impurity_Ok; [done|by eapply successors_node].
Qed.

Lemma entropy_rejects_zero_weight_witness :
  entropy_selector half_labelled [] model_weight_count = Raise ValueError ∧
  ∃ selected, gini_selector half_labelled [] model_weight_count = Ok selected.
Proof.
  apply (entropy_rejects_zero_weight half_labelled [] model_weight_count
    ["A"] 0).
  - by_evaluation.
  - by_evaluation.
  - by_evaluation.
  - by_evaluation.
  - vm_compute. discriminate.
Defined.

(** X5: a selector that [INPUT_SELECTORS] has is registered as ["random"],
    ["first"] or ["gini"], and whatever it returns is an input edge of the
    current node. *)
Theorem registered_selectors (choice : list node → nat) (name : string)
    (select : selector) :
  INPUT_SELECTORS choice name = Ok select →
  name ∈ ["random"; "first"; "gini"] ∧ selects_children select.
Proof.
  unfold INPUT_SELECTORS. repeat case_decide; subst; intros [= <-].
  - split; [set_solver|apply random_selects_children].
  - split; [set_solver|apply always_first_selects_children].
  - split; [set_solver|apply gini_selects_children].
Qed.

Lemma registered_selectors_witness :
  "gini" ∈ ["random"; "first"; "gini"] ∧ selects_children gini_selector.
Proof.
  apply (registered_selectors (λ _, 0%nat) "gini" gini_selector). reflexivity.
Defined.

(** ** What a descent returns *)

Lemma descent_loop_leaf (fuel : nat) (tree : ModelTree) (select : selector)
    (weight : weight_function) (lvs : list node) (cur n : node)
    (c c1 : Connector) :
  descent_loop fuel tree select weight lvs cur c = Some (Ok (Some n), c1) →
  n ∈ lvs.
Proof.
  revert cur c. induction fuel as [|fuel IH]; intros cur c; simpl; [done|].
  destruct (descent_step tree select weight lvs cur c) as [r c2] eqn:Hstep.
  apply descent_step_cases in Hstep
    as [[_ [e ->]]|(send_node & message & _ & _ & r' & _ & Hr)]; [done|].
  destruct r' as [[response|]|e]; simpl in Hr; [|by subst r|by subst r].
  destruct (decide (send_node ++ [response] ∈ node_names tree)); [|by subst r].
  destruct (decide (send_node ++ [response] ∈ lvs)); subst r.
  - by intros [= <- <-].
  - apply IH.
Qed.

(** X6: the node that a descent returns is a leaf of the tree, for every
    selector and every connector. *)
Theorem descent_returns_leaf (fuel : nat) (tree : ModelTree) (select : selector)
    (weight : weight_function) (c c1 : Connector) (n : node) :
  descent fuel tree select weight c = Some (Ok (Some n), c1) →
  n ∈ node_names tree ∧ successors tree n = [].
Proof.
  intros H. apply descent_loop_leaf in H. unfold leaves in H.
  apply list_elem_of_filter in H. tauto.
Qed.

Lemma descent_returns_leaf_witness :
  ["A"; "1"] ∈ node_names three_inputs ∧ successors three_inputs ["A"; "1"] = [].
Proof.
  apply (descent_returns_leaf 1 three_inputs always_first_selector
    model_weight_equal (benchmark_connector "m2")
    (send three_inputs (benchmark_connector "m2") "A").2).
  vm_compute. reflexivity.
Defined.

Lemma descent_loop_path (fuel : nat) (tree : ModelTree) (select : selector)
    (weight : weight_function) (lvs : list node) (cur n : node)
    (c c1 : Connector) :
  selects_children select →
  descent_loop fuel tree select weight lvs cur c = Some (Ok (Some n), c1) →
  ∃ l, calls c1 = calls c ++ l ∧
       Forall (λ x, ∃ message response, x = CallSend message (Some response)) l ∧
       n = cur ++ concat (transcript <$> l).
Proof.
  intros Hchildren. revert cur c.
  induction fuel as [|fuel IH]; intros cur c; simpl; [done|].
  destruct (descent_step tree select weight lvs cur c) as [r c2] eqn:Hstep.
  apply descent_step_cases in Hstep
    as [[_ [e ->]]|(send_node & message & Hsel & Hlast & r' & Hsend & Hr)];
    [done|].
  apply Hchildren, successors_last in Hsel as (tok & Hlast' & ->).
  assert (tok = message) as -> by congruence.
  apply send_calls_log in Hsend.
  destruct r' as [[response|]|e]; simpl in Hr, Hsend; [|by subst r|by subst r].
  destruct (decide ((cur ++ [message]) ++ [response] ∈ node_names tree));
    [|by subst r].
  destruct (decide ((cur ++ [message]) ++ [response] ∈ lvs)); subst r.
  - intros [= <- <-]. eexists [_]. split; [done|]. split.
    + constructor; [by eexists _, _|constructor].
    + simpl. by rewrite <- app_assoc.
  - intros (l & Hl & Hsends & ->)%IH.
    exists (CallSend message (Some response) :: l). split; [|split].
    + rewrite Hl, Hsend. by rewrite <- app_assoc.
    + constructor; [by eexists _, _|done].
    + simpl. by rewrite <- !app_assoc.
Qed.

Lemma transcript_answered_length (l : list call) :
  Forall (λ x, ∃ message response, x = CallSend message (Some response)) l →
  length (concat (transcript <$> l)) = (2 * length l)%nat.
Proof.
  induction 1 as [|x l (message & response & ->) _ IH]; [done|].
  rewrite fmap_cons, concat_cons, length_app, IH. simpl. lia.
Qed.

(** X7: with a selector that returns input edges, a descent that returns a
    leaf has only called [send], each call was answered, and the path of the
    leaf is the sequence of the tokens sent and received, in order: one
    [send] for every two tokens of the path. *)
Theorem descent_path (fuel : nat) (tree : ModelTree) (select : selector)
    (weight : weight_function) (c c1 : Connector) (n : node) :
  selects_children select →
  descent fuel tree select weight c = Some (Ok (Some n), c1) →
  ∃ l, calls c1 = calls c ++ l ∧
       Forall (λ x, ∃ message response, x = CallSend message (Some response)) l ∧
       n = concat (transcript <$> l) ∧ length n = (2 * length l)%nat.
Proof.
  intros Hchildren H.
  apply descent_loop_path in H as (l & Hl & Hsends & Hn); [|done].
  simpl in Hn. exists l. do 3 (split; [done|]).
  rewrite Hn. by apply transcript_answered_length.
Qed.

Lemma descent_path_witness :
  ∃ l, calls (send three_inputs (benchmark_connector "m2") "A").2 =
         calls (benchmark_connector "m2") ++ l ∧
       Forall (λ x, ∃ message response, x = CallSend message (Some response)) l ∧
       ["A"; "1"] = concat (transcript <$> l) ∧
       length ["A"; "1"] = (2 * length l)%nat.
Proof.
  apply (descent_path 1 three_inputs always_first_selector model_weight_equal).
  - exact always_first_selects_children.
  - vm_compute. reflexivity.
Defined.

Lemma descent_terminates_witness :
  is_Some (descent 2 three_inputs gini_selector model_weight_equal
             (benchmark_connector "m2")).
Proof.
  apply descent_terminates.
  - exact gini_selects_children.
  - vm_compute. lia.
Defined.

(** ** The benchmark connector answers for its target *)

Lemma BenchmarkConnector_send_Some (tree : ModelTree) (b b1 : BenchmarkConnector)
    (message output : token) :
  BenchmarkConnector_send tree b message = (Ok (Some output), b1) →
  (current_node b ++ [message]) ++ [output] ∈
    successors tree (current_node b ++ [message]) ∧
  target b ∈ tree_models (subtree tree ((current_node b ++ [message]) ++ [output])).
Proof.
  unfold BenchmarkConnector_send. simpl.
  destruct (tree_getitem tree (current_node b ++ [message])) as [neighbors|e]
    eqn:Hget; [|done].
  apply tree_getitem_Ok in Hget as [_ ->].
  destruct (find _ _) as [neighbor|] eqn:Hfind; [|done].
  apply find_some in Hfind as [Hin Htarget].
  apply list_elem_of_In in Hin. apply bool_decide_eq_true in Htarget.
  destruct (successors_last _ _ _ Hin) as (tok & Hlast & Hneighbor).
  rewrite Hlast. intros [= -> _]. by rewrite <- Hneighbor.
Qed.

Lemma descent_loop_target (fuel : nat) (tree : ModelTree) (select : selector)
    (weight : weight_function) (lvs : list node) (cur n : node)
    (c c1 : Connector) (tg : model) :
  selects_children select →
  at_cursor tg cur c →
  descent_loop fuel tree select weight lvs cur c = Some (Ok (Some n), c1) →
  tg ∈ tree_models (subtree tree n).
Proof.
  intros Hchildren. revert cur c.
  induction fuel as [|fuel IH]; intros cur c Hcur; simpl; [done|].
  destruct (descent_step tree select weight lvs cur c) as [r c2] eqn:Hstep.
  pose proof Hstep as Hcases.
  apply descent_step_cases in Hcases
    as [[_ [e ->]]|(send_node & message & Hsel & Hlast & r' & Hsend & Hr)];
    [done|].
  apply Hchildren, successors_last in Hsel as (tok & Hlast' & ->).
  assert (tok = message) as -> by congruence.
  destruct r' as [[response|]|e]; simpl in Hr; [|by subst r|by subst r].
  destruct (decide ((cur ++ [message]) ++ [response] ∈ node_names tree));
    [|by subst r].
  destruct (decide ((cur ++ [message]) ++ [response] ∈ lvs)); subst r.
  - intros [= <- <-]. destruct Hcur as (b & Hb & <- & <-).
    destruct (send_benchmark _ _ _ _ _ _ Hb Hsend) as (b1 & _ & Hs).
    by apply BenchmarkConnector_send_Some in Hs as [_ ?].
  - apply IH. by eapply descent_step_at_cursor.
Qed.

Lemma parent_closed_prefix (t : ModelTree) (n : node) (suffix : list token) :
  parent_closed t → suffix ≠ [] → n ++ suffix ∈ node_names t →
  ∃ tok, n ++ [tok] ∈ node_names t.
Proof.
  intros Hparent. unfold parent_closed in Hparent.
  rewrite Forall_forall in Hparent.
  induction suffix as [|x s IH] using rev_ind; [done|]. intros _ Hin.
  destruct (Hparent _ Hin) as [E|Hp].
  { by destruct n, s. }
  rewrite app_assoc, removelast_last in Hp.
  destruct s as [|y s']; [|by apply IH].
  exists x. exact Hin.
Qed.

Lemma NoDup_names_models (t : ModelTree) (n : node) (ms ms' : gset model) :
  NoDup (node_names t) → (n, ms) ∈ tree_nodes t → (n, ms') ∈ tree_nodes t →
  ms = ms'.
Proof.
  unfold node_names. induction (tree_nodes t) as [|[k v] l IH]; simpl.
  - by intros _ ?%elem_of_nil.
  - intros [Hk Hnd]%NoDup_cons [E1|H1]%elem_of_cons [E2|H2]%elem_of_cons.
    + congruence.
    + injection E1 as -> ->. destruct Hk.
      by apply (list_elem_of_fmap_2 fst) in H2.
    + injection E2 as -> ->. destruct Hk.
      by apply (list_elem_of_fmap_2 fst) in H1.
    + by apply IH.
Qed.

(** The models in the view of a leaf are the models of the leaf. *)
Lemma leaf_subtree_models (t : ModelTree) (n : node) (ms : gset model)
    (m : model) :
  parent_closed t → NoDup (node_names t) →
  successors t n = [] → (n, ms) ∈ tree_nodes t →
  m ∈ tree_models (subtree t n) → m ∈ ms.
Proof.
  intros Hparent Hnd Hleaf Hentry ([k ms'] & He & Hm)%elem_of_tree_models.
  simpl in He, Hm. apply list_elem_of_filter in He as [[suffix Hk] He].
  simpl in Hk. subst k.
  destruct suffix as [|x s].
  - rewrite app_nil_r in He. by rewrite (NoDup_names_models t n ms ms').
  - destruct (parent_closed_prefix t n (x :: s)) as [tok Htok]; [done|done| |].
    + apply list_elem_of_fmap. by exists (n ++ x :: s, ms').
    + assert (n ++ [tok] ∈ successors t n) as Hin.
      { apply elem_of_successors. split; [|done]. apply is_child_spec. eauto. }
      rewrite Hleaf in Hin. by apply elem_of_nil in Hin.
Qed.

(** X9: in a benchmark round on a tree whose nodes are distinct and have
    their parents, with a selector that returns input edges, the models of
    the leaf that the round reaches contain the target. *)
Theorem benchmark_round_keeps_target (condense : ModelTree → ModelTree)
    (select : selector) (weight : weight_function) (fuel : nat)
    (tree : ModelTree) (c c1 : Connector) (tg : model) (r : round)
    (leaf_models : gset model) :
  selects_children select →
  parent_closed tree → NoDup (node_names tree) →
  at_cursor tg [] c →
  identify_round condense select weight fuel tree c = Some (Ok r, c1) →
  recorded r = Some leaf_models →
  tg ∈ leaf_models.
Proof.
  intros Hchildren Hparent Hnd Hcur Hround Hrecorded.
  destruct (identify_round_recorded _ _ _ _ _ _ _ _ _ Hround Hrecorded)
    as (leaf_node & c' & Hdescent & Hmodels).
  pose proof (descent_loop_leaf _ _ _ _ _ _ _ _ _ Hdescent) as Hleaf.
  apply list_elem_of_filter in Hleaf as [Hleaf _].
  apply node_models_Ok in Hmodels.
  eapply leaf_subtree_models; [done|done|done|done|].
  by eapply descent_loop_target.
Qed.

Lemma benchmark_round_keeps_target_witness :
  "m2" ∈ ({[ "m2"; "m3" ]} : gset model).
Proof.
  apply (benchmark_round_keeps_target condense_chains always_first_selector
    model_weight_equal 1 three_inputs (benchmark_connector "m2")
    after_first_round "m2" (Again {[ "m2"; "m3" ]} two_inputs)).
  - exact always_first_selects_children.
  - by_evaluation.
  - by_evaluation.
  - by eexists.
  - vm_compute. reflexivity.
  - reflexivity.
Defined.



(** ** Reset *)

Lemma send_same_view (tree : ModelTree) (c c' c1 c1' : Connector)
    (message : token) (r r' : result (option token)) (tg : model) (cur : node) :
  at_cursor tg cur c → at_cursor tg cur c' →
  send tree c message = (r, c1) → send tree c' message = (r', c1') →
  r = r' ∧ ∃ cur1, at_cursor tg cur1 c1 ∧ at_cursor tg cur1 c1'.
Proof.
  intros (b & Hb & Ht & Hc) (b' & Hb' & Ht' & Hc'). unfold send.
  rewrite Hb, Hb'. unfold BenchmarkConnector_send. simpl.
  rewrite Ht, Hc, Ht', Hc'.
  destruct (tree_getitem tree (cur ++ [message])) as [neighbors|e].
  - destruct (find _ neighbors) as [neighbor|].
    + destruct (last neighbor) as [output|]; intros [= <- <-] [= <- <-];
        (split; [done|]); eexists; split; eexists; done.
    + intros [= <- <-] [= <- <-]. split; [done|].
      eexists; split; eexists; done.
  - intros [= <- <-] [= <- <-]. split; [done|].
    eexists; split; eexists; done.
Qed.

Lemma descent_loop_same_view (fuel : nat) (tree : ModelTree) (select : selector)
    (weight : weight_function) (lvs : list node) (cur at_c : node)
    (c c' : Connector) (tg : model) :
  at_cursor tg at_c c → at_cursor tg at_c c' →
  fst <$> descent_loop fuel tree select weight lvs cur c =
  fst <$> descent_loop fuel tree select weight lvs cur c'.
Proof.
  revert cur at_c c c'.
  induction fuel as [|fuel IH]; intros cur at_c c c' Hc Hc'; simpl; [done|].
  unfold descent_step.
  destruct (select tree cur weight) as [send_node|e]; [|done].
  destruct (last send_node) as [message|]; [|done].
  destruct (send tree c message) as [r c1] eqn:Hsend.
  destruct (send tree c' message) as [r' c1'] eqn:Hsend'.
  destruct (send_same_view _ _ _ _ _ _ _ _ _ _ Hc Hc' Hsend Hsend')
    as (<- & cur1 & Hc1 & Hc1').
  destruct r as [[response|]|e]; try done.
  destruct (tree_getitem tree (send_node ++ [response])) as [?|[]]; try done.
  case_decide; [done|]. by eapply IH.
Qed.

(** X11: after [reset], the benchmark connector replays: a descent returns
    what it returns with a new connector for the same target, whatever was
    sent before the reset. *)
Theorem reset_replays (fuel : nat) (tree tree' : ModelTree) (select : selector)
    (weight : weight_function) (c c1 : Connector) (r : result ())
    (tg : model) (at_c : node) :
  at_cursor tg at_c c →
  reset tree' c = (r, c1) →
  fst <$> descent fuel tree select weight c1 =
  fst <$> descent fuel tree select weight (benchmark_connector tg).
Proof.
  intros Hc Hreset. eapply descent_loop_same_view.
  - by eapply reset_at_cursor.
  - by eexists.
Qed.

Lemma reset_replays_witness :
  fst <$> descent 1 two_inputs gini_selector model_weight_equal
            after_first_round =
  fst <$> descent 1 two_inputs gini_selector model_weight_equal
            (benchmark_connector "m2").
Proof.
  apply (reset_replays 1 two_inputs two_inputs gini_selector
    model_weight_equal (send three_inputs (benchmark_connector "m2") "A").2
    after_first_round (Ok ()) "m2" ["A"; "1"]).
  - by eexists.
  - vm_compute. reflexivity.
Defined.

Lemma sends_no_reset (l : list call) :
  Forall is_send l → filter (λ x, x = CallReset) l = [].
Proof.
  induction 1 as [|x l Hx _ IH]; [done|].
  rewrite filter_cons_False; [done|]. intros ->. done.
Qed.

Lemma identify_round_resets (condense : ModelTree → ModelTree)
    (select : selector) (weight : weight_function) (fuel : nat)
    (tree : ModelTree) (c c1 : Connector) (r : round) :
  identify_round condense select weight fuel tree c = Some (Ok r, c1) →
  reset_calls c1 =
  (reset_calls c + match r with Again _ _ => 1 | Return _ _ => 0 end)%nat.
Proof.
  unfold identify_round, reset_calls.
  destruct (descent fuel tree select weight c) as [[r' c2]|] eqn:Hd; [|done].
  apply descent_loop_calls in Hd as (l & Hl & Hsends).
  apply sends_no_reset in Hsends.
  assert (∀ leaf_models v,
    Some (Ok (Return leaf_models v), close c2) = Some (Ok r, c1) →
    length (filter (λ x, x = CallReset) (calls c1)) =
    (length (filter (λ x, x = CallReset) (calls c)) +
     match r with Again _ _ => 1 | Return _ _ => 0 end)%nat) as Hclose.
  { intros ?? [= <- <-]. simpl.
    rewrite Hl, !filter_app, Hsends, !length_app. simpl. lia. }
  destruct r' as [[[|tok leaf_node]|]|e]; try by apply Hclose.
  - destruct (node_models tree (tok :: leaf_node)) as [leaf_models|e]; [|done].
    simpl. case_decide; [by apply Hclose|].
    destruct (reset _ c2) as [[[]|e] c3] eqn:Hreset; [|done].
    apply reset_calls_log in Hreset as (l' & Hl' & Hs').
    apply sends_no_reset in Hs'.
    intros [= <- <-]. rewrite Hl', Hl, !filter_app, Hsends.
    rewrite filter_cons_True by done. rewrite Hs', !length_app. simpl. lia.
  - done.
Qed.

(** X13: a run of [identify] that returns in its [k+1]-th round has called
    [reset] exactly [k] times: once between two consecutive descents, and
    not before returning. *)
Theorem identify_resets_between_rounds (condense : ModelTree → ModelTree)
    (select : selector) (weight : weight_function) (k fuel : nat)
    (tree0 tree : ModelTree) (c0 c c1 : Connector)
    (leaf_models : option (gset model)) (v : identify_value) :
  after_rounds condense select weight k fuel tree0 c0 = Some (tree, c) →
  identify_round condense select weight fuel tree c =
    Some (Ok (Return leaf_models v), c1) →
  reset_calls c1 = (reset_calls c0 + k)%nat.
Proof.
  intros Hrounds Hround. apply identify_round_resets in Hround.
  rewrite Hround, Nat.add_0_r. clear Hround c1.
  revert tree0 c0 Hrounds. induction k as [|k IH]; intros tree0 c0; simpl.
  - intros [= _ <-]. lia.
  - destruct (identify_round condense select weight fuel tree0 c0)
      as [[[[|lm tree1]|] c2]|] eqn:Hround; try done.
    intros H%IH. apply identify_round_resets in Hround. lia.
Qed.

Lemma identify_resets_between_rounds_witness :
  reset_calls after_second_round = (reset_calls (benchmark_connector "m2") + 1)%nat.
Proof.
  apply (identify_resets_between_rounds condense_chains always_first_selector
    model_weight_equal 1 1 three_inputs two_inputs (benchmark_connector "m2")
    after_first_round after_second_round (Some {[ "m2" ]})
    (ModelsAndMessages {[ "m2" ]} ["A"; "1"; "RESET"; ""; "B"; "0"])).
  - vm_compute. reflexivity.
  - vm_compute. reflexivity.
Defined.

(** ** The live connector *)

Lemma sent_messages_app (l1 l2 : list call) :
  sent_messages (l1 ++ l2) = sent_messages l1 ++ sent_messages l2.
Proof. apply omap_app. Qed.

Lemma send_wired (remote : list token → result token) (tree : ModelTree)
    (c c1 : Connector) (message : token) (r : result (option token)) :
  wired remote c → send tree c message = (r, c1) → wired remote c1.
Proof.
  intros (a & Ha & Hp & Hw). unfold send. rewrite Ha.
  unfold TLSAttackerConnector_send. simpl.
  destruct (peer a (written a ++ [message])); intros [= <- <-];
    eexists; (split; [done|]); simpl; (split; [done|]);
    by rewrite sent_messages_app, Hw.
Qed.

Lemma reset_wired (remote : list token → result token) (tree : ModelTree)
    (c c1 : Connector) (r : result ()) :
  wired remote c → reset tree c = (r, c1) →
  wired remote c1 ∧
  ∃ a1, object c1 = TLSAttacker a1 ∧ last (written a1) = Some "RESET".
Proof.
  intros (a & Ha & Hp & Hw). unfold reset. rewrite Ha.
  destruct (send tree _ "RESET") as [r' c'] eqn:Hsend.
  intros [= <- <-]. split.
  - eapply send_wired; [|exact Hsend]. exists a. do 2 (split; [done|]).
    simpl. rewrite sent_messages_app. simpl. by rewrite app_nil_r.
  - unfold send in Hsend. simpl in Hsend.
    unfold TLSAttackerConnector_send in Hsend. simpl in Hsend.
    revert Hsend.
    match goal with |- context [match ?x with Ok _ => _ | Raise _ => _ end] =>
      destruct x end; simpl; intros [= <- <-];
      eexists; (split; [done|]); simpl; by rewrite last_snoc.
Qed.

Lemma close_wired (remote : list token → result token) (c : Connector) :
  wired remote c → wired remote (close c).
Proof.
  intros (a & Ha & Hp & Hw). exists a. do 2 (split; [done|]). simpl.
  rewrite sent_messages_app. simpl. by rewrite app_nil_r.
Qed.

Lemma descent_loop_wired (remote : list token → result token) (fuel : nat)
    (tree : ModelTree) (select : selector) (weight : weight_function)
    (lvs : list node) (cur : node) (c c1 : Connector)
    (r : result (option node)) :
  wired remote c →
  descent_loop fuel tree select weight lvs cur c = Some (r, c1) →
  wired remote c1.
Proof.
  revert cur c. induction fuel as [|fuel IH]; intros cur c Hc; simpl; [done|].
  destruct (descent_step tree select weight lvs cur c) as [s c2] eqn:Hstep.
  assert (wired remote c2) as Hc2.
  { apply descent_step_cases in Hstep
      as [[-> _]|(send_node & message & _ & _ & r' & Hsend & _)]; [done|].
    by eapply send_wired. }
  destruct s as [[| |n]|e]; try (by intros [= <- <-]).
  by apply IH.
Qed.

Lemma identify_round_wired (remote : list token → result token)
    (condense : ModelTree → ModelTree) (select : selector)
    (weight : weight_function) (fuel : nat) (tree : ModelTree)
    (c c1 : Connector) (r : result round) :
  wired remote c →
  identify_round condense select weight fuel tree c = Some (r, c1) →
  wired remote c1.
Proof.
  intros Hc. unfold identify_round.
  destruct (descent fuel tree select weight c) as [[r' c2]|] eqn:Hd; [|done].
  apply (descent_loop_wired remote) in Hd; [|done].
  destruct r' as [[[|tok leaf_node]|]|e];
    try (intros [= <- <-]; by try apply close_wired).
  destruct (node_models tree (tok :: leaf_node)) as [leaf_models|e];
    [|by intros [= <- <-]].
  simpl. case_decide; [intros [= <- <-]; by apply close_wired|].
  destruct (reset _ c2) as [[[]|e] c3] eqn:Hreset;
    apply (reset_wired remote) in Hreset as [? _]; try done;
    by intros [= <- <-].
Qed.



(** ** The tree after [identify] *)

Lemma tree_len_zero (t : ModelTree) : tree_len t = 0%nat → node_names t = [].
Proof.
  unfold tree_len. intros H%length_zero_iff_nil.
  destruct (node_names t) as [|n l] eqn:E; [done|].
  assert (n ∈ remove_dups (n :: l)) as Hin by (apply elem_of_remove_dups; left).
  rewrite H in Hin. by apply elem_of_nil in Hin.
Qed.

Lemma identify_round_return (condense : ModelTree → ModelTree)
    (select : selector) (weight : weight_function) (fuel : nat)
    (tree : ModelTree) (c c1 : Connector) (leaf_models : gset model)
    (v : identify_value) :
  identify_round condense select weight fuel tree c =
    Some (Ok (Return (Some leaf_models) v), c1) →
  tree_len (condense (prune_models tree (tree_models tree ∖ leaf_models))) = 0%nat ∧
  v ≠ NoMatch.
Proof.
  unfold identify_round.
  destruct (descent fuel tree select weight c) as [[r' c2]|]; [|done].
  destruct r' as [[[|tok leaf_node]|]|e]; try done.
  destruct (node_models tree (tok :: leaf_node)) as [lm|e]; [|done].
  simpl. case_decide.
  - intros [= <- <-]. split; [done|]. unfold returned.
    by destruct (object (close c2)).
  - by destruct (reset _ c2) as [[[]|e] c3].
Qed.

Lemma identify_round_no_match (condense : ModelTree → ModelTree)
    (select : selector) (weight : weight_function) (fuel : nat)
    (tree : ModelTree) (c c1 : Connector) (v : identify_value) :
  identify_round condense select weight fuel tree c =
    Some (Ok (Return None v), c1) →
  v = NoMatch.
Proof.
  unfold identify_round.
  destruct (descent fuel tree select weight c) as [[r' c2]|]; [|done].
  destruct r' as [[[|tok leaf_node]|]|e]; try done;
    try by intros [= <- <-].
  destruct (node_models tree (tok :: leaf_node)) as [lm|e]; [|done].
  simpl. case_decide; [done|].
  by destruct (reset _ c2) as [[[]|e] c3].
Qed.

Lemma identify_tree_returned (condense : ModelTree → ModelTree)
    (select : selector) (weight : weight_function) (rounds fuel : nat)
    (tree : ModelTree) (c c1 : Connector) (v : identify_value) :
  identify_loop condense select weight rounds fuel tree c = Some (Ok v, c1) →
  v ≠ NoMatch →
  ∃ tree', identify_tree condense select weight rounds fuel tree c = Some tree' ∧
           tree_len tree' = 0%nat.
Proof.
  revert tree c. induction rounds as [|rounds IH]; intros tree c; simpl; [done|].
  destruct (identify_round condense select weight fuel tree c)
    as [[[[[lm|] v'|lm tree1]|e] c2]|] eqn:Hround; try done.
  - intros [= <- <-] _. apply identify_round_return in Hround as [Hlen _].
    eexists. by split.
  - intros [= <- <-] Hv. by apply identify_round_no_match in Hround.
  - apply IH.
Qed.

(** X14: when [identify] returns a set of models, the tree object it was
    given is empty: it has no node left, not even the root. *)
Theorem identify_empties_tree (condense : ModelTree → ModelTree)
    (select : selector) (weight : weight_function) (rounds fuel : nat)
    (tree : ModelTree) (c c1 : Connector) (v : identify_value) :
  identify_loop condense select weight rounds fuel tree c = Some (Ok v, c1) →
  v ≠ NoMatch →
  ∃ tree', identify_tree condense select weight rounds fuel tree c = Some tree' ∧
           tree_len tree' = 0%nat ∧ node_names tree' = [].
Proof.
  intros Hloop Hv.
  destruct (identify_tree_returned _ _ _ _ _ _ _ _ _ Hloop Hv)
    as (tree' & Htree & Hlen).
  exists tree'. split; [done|]. split; [done|]. by apply tree_len_zero.
Qed.

Lemma identify_empties_tree_witness :
  ∃ tree', identify_tree condense_chains always_first_selector
             model_weight_equal 2 1 three_inputs (benchmark_connector "m2") =
             Some tree' ∧
           tree_len tree' = 0%nat ∧ node_names tree' = [].
Proof.
  apply (identify_empties_tree condense_chains always_first_selector
    model_weight_equal 2 1 three_inputs (benchmark_connector "m2")
    after_second_round
    (ModelsAndMessages {[ "m2" ]} ["A"; "1"; "RESET"; ""; "B"; "0"])).
  - vm_compute. reflexivity.
  - discriminate.
Defined.

(** ** Repeating a benchmark *)

Lemma registered_selector_needs_root (choice : list node → nat) (name : string)
    (select : selector) (tree : ModelTree) (weight : weight_function) :
  INPUT_SELECTORS choice name = Ok select →
  node_names tree = [] →
  select tree [] weight = Raise KeyError.
Proof.
  intros Hselect Hempty.
  assert (tree_getitem tree [] = Raise KeyError) as Hget.
  { apply tree_getitem_Raise. rewrite Hempty. split; [|done].
    apply not_elem_of_nil. }
  unfold INPUT_SELECTORS in Hselect.
  repeat case_decide; try done; injection Hselect as <-.
  - unfold random_selector. by rewrite Hget.
  - unfold always_first_selector. by rewrite Hget.
  - unfold gini_selector. by rewrite Hget.
Qed.

Lemma identify_loop_raises (condense : ModelTree → ModelTree)
    (select : selector) (weight : weight_function) (rounds fuel : nat)
    (tree : ModelTree) (c : Connector) (e : exn) :
  select tree [] weight = Raise e →
  identify_loop condense select weight (S rounds) (S fuel) tree c =
  Some (Raise e, c).
Proof.
  intros Hselect. simpl. unfold identify_round, descent. simpl.
  unfold descent_step. by rewrite Hselect.
Qed.

Lemma identify_loop_fuel_positive (condense : ModelTree → ModelTree)
    (select : selector) (weight : weight_function) (rounds fuel : nat)
    (tree : ModelTree) (c : Connector)
    (r : result identify_value * Connector) :
  identify_loop condense select weight rounds fuel tree c = Some r →
  ∃ rounds' fuel', rounds = S rounds' ∧ fuel = S fuel'.
Proof.
  destruct rounds as [|rounds']; [done|]. destruct fuel as [|fuel']; [done|].
  eauto.
Qed.

(** X15: [benchmark] gives every iteration the same tree object, which the
    first iteration leaves empty: if one iteration returns results, then two
    or more iterations raise [KeyError] -- in the second iteration, when the
    selector looks up the root. *)
Theorem benchmark_repeated (condense : ModelTree → ModelTree)
    (choice : list node → nat) (version_ge : string → string → bool)
    (rounds fuel iterations : nat) (tree : ModelTree) (model : model)
    (input_selector weight_function : string) (results : list metrics) :
  benchmark condense choice version_ge rounds fuel tree model input_selector
    weight_function 1 = Some (Ok results) →
  benchmark condense choice version_ge rounds fuel tree model input_selector
    weight_function (S (S iterations)) = Some (Raise KeyError).
Proof.
  unfold benchmark.
  destruct (INPUT_SELECTORS choice input_selector) as [select|e] eqn:Hselect;
    [|done].
  destruct (MODEL_WEIGHTS version_ge weight_function) as [weight|e]; [|done].
  cbn [benchmark_loop].
  destruct (benchmark_model condense rounds fuel tree model select weight)
    as [[[m|e] c]|] eqn:Hmodel; try done.
  unfold benchmark_model, identify in Hmodel. simpl in Hmodel.
  destruct (identify_loop condense select weight rounds fuel tree
              (benchmark_connector model))
    as [[[[|ms|ms path]|e] c1]|] eqn:Hloop; try done.
  destruct (identify_loop_fuel_positive _ _ _ _ _ _ _ _ Hloop)
    as (rounds' & fuel' & -> & ->).
  apply identify_tree_returned in Hloop as (tree' & -> & Hempty); [|done].
  apply tree_len_zero in Hempty.
  intros _.
  unfold benchmark_model at 1, identify.
  rewrite (identify_loop_raises _ _ _ _ _ _ _ KeyError); [done|].
  by eapply registered_selector_needs_root.
Qed.

Lemma benchmark_repeated_witness :
  benchmark condense_chains (λ _, 0%nat) (λ _ _, false) 2 1 three_inputs "m2"
    "gini" "equal" 2 = Some (Raise KeyError).
Proof.
  apply (benchmark_repeated condense_chains (λ _, 0%nat) (λ _ _, false) 2 1 0
    three_inputs "m2" "gini" "equal"
    [{| inputs := 3; resets := 1 |}]).
  vm_compute. reflexivity.
Defined.

(** ** Colouring a path *)

Lemma lookup_set_color {K} `{Countable K} (name : string) (keys : list K)
    (m : gmap K string) (k : K) :
  set_color name keys m !! k = if decide (k ∈ keys) then Some name else m !! k.
Proof.
  unfold set_color. revert m. induction keys as [|k0 keys IH]; intros m;
    cbn [foldl].
  - destruct (decide (k ∈ [])) as [Hin%elem_of_nil|]; done.
  - rewrite IH.
    destruct (decide (k ∈ keys)) as [Hin|Hout],
             (decide (k ∈ k0 :: keys)) as [Hin'|Hout']; try done.
    + destruct Hout'. by right.
    + apply elem_of_cons in Hin' as [->|?]; [|done]. by rewrite lookup_insert_eq.
    + rewrite lookup_insert_ne; [done|]. intros ->. apply Hout'. by left.
Qed.

Lemma lookup_del_color {K} `{Countable K} (keys : list K) (m : gmap K string)
    (k : K) :
  del_color keys m !! k = if decide (k ∈ keys) then None else m !! k.
Proof.
  unfold del_color. revert m. induction keys as [|k0 keys IH]; intros m;
    cbn [foldl].
  - destruct (decide (k ∈ [])) as [Hin%elem_of_nil|]; done.
  - rewrite IH.
    destruct (decide (k ∈ keys)) as [Hin|Hout],
             (decide (k ∈ k0 :: keys)) as [Hin'|Hout']; try done.
    + destruct Hout'. by right.
    + apply elem_of_cons in Hin' as [->|?]; [|done]. by rewrite lookup_delete_eq.
    + rewrite lookup_delete_ne; [done|]. intros ->. apply Hout'. by left.
Qed.

Lemma elem_of_path_nodes (endpoint n : node) :
  n ∈ path_nodes endpoint ↔ n `prefix_of` endpoint.
Proof.
  unfold path_nodes. rewrite list_elem_of_fmap. split.
  - intros (i & -> & _). exists (drop i endpoint). by rewrite take_drop.
  - intros [k ->]. exists (length n). split.
    + by rewrite take_app_length.
    + apply elem_of_seq. rewrite length_app. lia.
Qed.

Lemma zip_consecutive {A} (f : nat → A) (a n : nat) :
  zip (f <$> seq a (S n)) (f <$> seq (S a) n) =
  (λ i, (f i, f (S i))) <$> seq a n.
Proof.
  revert a. induction n as [|n IH]; intros a; [done|].
  specialize (IH (S a)). cbn [seq] in *. rewrite !fmap_cons in *.
  cbn [zip_with]. f_equal. exact IH.
Qed.

Lemma path_edges_seq (endpoint : node) :
  path_edges endpoint =
  (λ i, (take i endpoint, take (S i) endpoint)) <$> seq 0 (length endpoint).
Proof.
  unfold path_edges, path_nodes.
  by rewrite <- (zip_consecutive (λ i, take i endpoint)).
Qed.

Lemma elem_of_path_edges (endpoint : node) (e : node * node) :
  e ∈ path_edges endpoint ↔ on_path endpoint e.
Proof.
  rewrite path_edges_seq, list_elem_of_fmap. unfold on_path.
  rewrite is_child_spec. split.
  - intros (i & -> & [_ Hi]%elem_of_seq). simpl.
    destruct (lookup_lt_is_Some_2 endpoint i) as [x Hx]; [lia|].
    rewrite (take_S_r _ _ _ Hx). split; [by exists x|].
    rewrite <- (take_S_r _ _ _ Hx). exists (drop (S i) endpoint).
    by rewrite take_drop.
  - destruct e as [a b]. simpl. intros [[tok ->] [k ->]].
    exists (length a). split.
    + f_equal.
      * by rewrite <- !app_assoc, take_app_length.
      * symmetry. apply take_app_length'. rewrite length_app. simpl. lia.
    + apply elem_of_seq. rewrite !length_app. simpl. lia.
Qed.

Lemma parent_closed_ancestor (t : ModelTree) (n : node) (suffix : list token) :
  parent_closed t → n ++ suffix ∈ node_names t → n ∈ node_names t.
Proof.
  intros Hparent. unfold parent_closed in Hparent.
  rewrite Forall_forall in Hparent.
  induction suffix as [|x s IH] using rev_ind.
  - by rewrite app_nil_r.
  - intros Hin. destruct (Hparent _ Hin) as [E|Hp].
    + by destruct n, s.
    + rewrite app_assoc, removelast_last in Hp. by apply IH.
Qed.

Lemma path_edges_in_tree (t : ModelTree) (endpoint : node) :
  Forall (λ name, name ∈ node_names t) (path_nodes endpoint) →
  Forall (has_edge t) (path_edges endpoint).
Proof.
  rewrite !Forall_forall. intros Hnodes [a b] [Hchild Hprefix]%elem_of_path_edges.
  simpl in *. split; simpl.
  - apply Hnodes, elem_of_path_nodes.
    apply is_child_spec in Hchild as [tok ->].
    destruct Hprefix as [k ->]. exists ([tok] ++ k). by rewrite app_assoc.
  - apply elem_of_successors. split; [done|].
    by apply Hnodes, elem_of_path_nodes.
Qed.

Lemma color_path_Ok (tree : ModelTree) (c : colors) (endpoint : node)
    (color : py_color) :
  Forall (λ name, name ∈ node_names tree) (path_nodes endpoint) →
  ∃ c', _color_path tree c endpoint color = Ok c'.
Proof.
  intros Hnodes. unfold _color_path.
  rewrite decide_True by done.
  rewrite decide_True by (by apply path_edges_in_tree).
  destruct color as [|name]; [by eexists|].
  destruct (truthy (Color name)); by eexists.
Qed.

Lemma set_color_entries {K} `{Countable K} (name : string) (keys : list K)
    (m : gmap K string) (P : K → Prop) `{∀ k, Decision (P k)} :
  (∀ k, k ∈ keys ↔ P k) →
  ∀ k, set_color name keys m !! k = if decide (P k) then Some name else m !! k.
Proof.
  intros HP k. rewrite lookup_set_color.
  repeat case_decide; try done; exfalso;
    match goal with H : ¬ _ |- _ => apply H end; by apply HP.
Qed.

Lemma del_color_entries {K} `{Countable K} (keys : list K)
    (m : gmap K string) (P : K → Prop) `{∀ k, Decision (P k)} :
  (∀ k, k ∈ keys ↔ P k) →
  ∀ k, del_color keys m !! k = if decide (P k) then None else m !! k.
Proof.
  intros HP k. rewrite lookup_del_color.
  repeat case_decide; try done; exfalso;
    match goal with H : ¬ _ |- _ => apply H end; by apply HP.
Qed.

Lemma color_path_entries (tree : ModelTree) (c c' : colors) (endpoint : node)
    (color : py_color) :
  _color_path tree c endpoint color = Ok c' ↔
  Forall (λ name, name ∈ node_names tree) (path_nodes endpoint) ∧
  ((∀ n, node_color c' !! n =
         if decide (n `prefix_of` endpoint) then color_entry color
         else node_color c !! n) ∧
   (∀ e, edge_color c' !! e =
         if decide (on_path endpoint e) then color_entry color
         else edge_color c !! e)).
Proof.
  pose proof (elem_of_path_nodes endpoint) as Hn.
  pose proof (elem_of_path_edges endpoint) as He.
  pose proof (path_edges_in_tree tree endpoint) as Hedges.
  unfold _color_path, color_entry.
  generalize dependent (path_nodes endpoint).
  generalize dependent (path_edges endpoint).
  intros es He ns Hn Hedges.
  destruct (decide (Forall (λ name, name ∈ node_names tree) ns)) as [Hall|Hnot];
    [|by intros; split; [|intros []]].
  rewrite decide_True by auto.
  assert (∀ x : colors, Ok x = Ok c' ↔ node_color x = node_color c' ∧
                                      edge_color x = edge_color c') as Hrec.
  { intros [a b]. destruct c' as [a' b']. simpl. split.
    - by intros [= -> ->].
    - by intros [-> ->]. }
  destruct color as [|name]; [|destruct (truthy (Color name))];
    rewrite Hrec; cbn [node_color edge_color];
    (split; [intros [<- <-]; split; [done|]; split; intros k
            |intros [_ [Hnc Hec]]; split; apply map_eq; intros k;
             rewrite ?Hnc, ?Hec]);
    first [ exact (set_color_entries _ ns _ _ Hn k)
          | exact (set_color_entries _ es _ _ He k)
          | exact (del_color_entries ns _ _ Hn k)
          | exact (del_color_entries es _ _ He k) ].
Qed.

(** X16: in a tree in which every node but the root has its parent,
    [_color_path] colours the path when the endpoint is a node of the tree,
    and raises [KeyError] when it is not; the lookups of the edges never
    fail on their own. *)
Theorem color_path_defined (tree : ModelTree) (c : colors) (endpoint : node)
    (color : py_color) :
  parent_closed tree →
  (endpoint ∈ node_names tree →
   ∃ c', _color_path tree c endpoint color = Ok c') ∧
  (endpoint ∉ node_names tree →
   _color_path tree c endpoint color = Raise KeyError).
Proof.
  intros Hparent. split.
  - intros Hin. apply color_path_Ok.
    apply Forall_forall. intros n [k ->]%elem_of_path_nodes.
    by eapply parent_closed_ancestor.
  - intros Hout. unfold _color_path. rewrite decide_False; [done|].
    rewrite Forall_forall. intros Hall. apply Hout, Hall, elem_of_path_nodes.
    done.
Qed.

Lemma color_path_defined_witness :
  (["A"; "1"] ∈ node_names three_inputs →
   ∃ c', _color_path three_inputs {| node_color := ∅; edge_color := ∅ |}
           ["A"; "1"] (Color "red") = Ok c') ∧
  (["A"; "1"] ∉ node_names three_inputs →
   _color_path three_inputs {| node_color := ∅; edge_color := ∅ |}
     ["A"; "1"] (Color "red") = Raise KeyError).
Proof.
  apply (color_path_defined three_inputs {| node_color := ∅; edge_color := ∅ |}
           ["A"; "1"] (Color "red")).
  by_evaluation.
Defined.

(** X17: when [_color_path] returns, every node on the path from the root
    to the endpoint (every prefix of the endpoint) and every edge between
    two of them has the colour, or no colour when the colour is false; the
    colour of every other node and edge is what it was. *)
Theorem color_path_colors (tree : ModelTree) (c c' : colors) (endpoint : node)
    (color : py_color) :
  _color_path tree c endpoint color = Ok c' →
  (∀ n, node_color c' !! n =
        if decide (n `prefix_of` endpoint) then color_entry color
        else node_color c !! n) ∧
  (∀ e, edge_color c' !! e =
        if decide (on_path endpoint e) then color_entry color
        else edge_color c !! e).
Proof.
  intros Hc. by apply color_path_entries in Hc as [_ Hentries].
Qed.

Lemma color_path_colors_witness :
  (∀ n, node_color {| node_color := {[ [] := "red"; ["A"] := "red" ]};
                      edge_color := {[ ([], ["A"]) := "red" ]} |} !! n =
        if decide (n `prefix_of` ["A"]) then color_entry (Color "red")
        else node_color {| node_color := ∅; edge_color := ∅ |} !! n) ∧
  (∀ e, edge_color {| node_color := {[ [] := "red"; ["A"] := "red" ]};
                      edge_color := {[ ([], ["A"]) := "red" ]} |} !! e =
        if decide (on_path ["A"] e) then color_entry (Color "red")
        else edge_color {| node_color := ∅; edge_color := ∅ |} !! e).
Proof.
  apply (color_path_colors three_inputs {| node_color := ∅; edge_color := ∅ |}
           _ ["A"] (Color "red")).
  unfold _color_path.
  rewrite decide_True by by_evaluation. rewrite decide_True by by_evaluation.
  simpl. by f_equal.
Defined.

(** X18: colouring the path to an endpoint and then clearing it, as
    [identify] does around its drawings, gives back the colours there were
    before, when no node and no edge of the path had a colour. *)
Theorem color_path_round_trip (tree : ModelTree) (c c1 : colors)
    (endpoint : node) (color : py_color) :
  (∀ n, n `prefix_of` endpoint → node_color c !! n = None) →
  (∀ e, on_path endpoint e → edge_color c !! e = None) →
  _color_path tree c endpoint color = Ok c1 →
  _color_path tree c1 endpoint ColorFalse = Ok c.
Proof.
  intros Hnodes Hedges Hc.
  apply color_path_entries in Hc as [Hall [Hn1 He1]].
  destruct (color_path_Ok tree c1 endpoint ColorFalse Hall) as [c2 Hc2].
  pose proof Hc2 as Hentries.
  apply color_path_entries in Hentries as [_ [Hn2 He2]].
  rewrite Hc2. f_equal. destruct c as [nc ec], c2 as [nc2 ec2].
  cbn [node_color edge_color] in *. f_equal.
  - apply map_eq. intros n. rewrite Hn2, Hn1. case_decide; [|done].
    symmetry. by apply Hnodes.
  - apply map_eq. intros e. rewrite He2, He1. case_decide; [|done].
    symmetry. by apply Hedges.
Qed.

Lemma color_path_round_trip_witness :
  _color_path three_inputs
    {| node_color := {[ [] := "red"; ["A"] := "red" ]};
       edge_color := {[ ([], ["A"]) := "red" ]} |} ["A"] ColorFalse =
  Ok {| node_color := ∅; edge_color := ∅ |}.
Proof.
  apply (color_path_round_trip three_inputs
           {| node_color := ∅; edge_color := ∅ |} _ ["A"] (Color "red")).
  - intros n _. apply lookup_empty.
  - intros e _. apply lookup_empty.
  - unfold _color_path.
    rewrite decide_True by by_evaluation. rewrite decide_True by by_evaluation.
    simpl. by f_equal.
Defined.

(** ** The Gini selector under positive weights *)

Lemma sum_Z_nonnegative (l : list Z) :
  Forall (λ x, 0 < x)%Z l → (0 ≤ sum_Z l)%Z.
Proof.
  induction 1 as [|x l Hx _ IH]; [done|]. rewrite sum_Z_cons. lia.
Qed.

Lemma tree_weight_positive (t : ModelTree)
    (mapping : model → list implementation) (weight : weight_function)
    (m : model) :
  (∀ impls, (0 < weight impls)%Z) → m ∈ tree_models t →
  (0 < _tree_weight t mapping weight)%Z.
Proof.
  intros Hweight Hm%elem_of_elements. unfold _tree_weight.
  destruct (elements (tree_models t)) as [|m0 l]; [by apply elem_of_nil in Hm|].
  rewrite fmap_cons, sum_Z_cons.
  pose proof (Hweight (mapping m0)).
  assert (0 ≤ sum_Z ((λ m, weight (mapping m)) <$> l))%Z; [|lia].
  apply sum_Z_nonnegative, Forall_fmap, Forall_forall. intros x _. apply Hweight.
Qed.

Lemma subtree_models_inhabited (t : ModelTree) (n : node) :
  inhabited t → n ∈ node_names t → ∃ m, m ∈ tree_models (subtree t n).
Proof.
  unfold inhabited, node_names. rewrite Forall_forall.
  intros Hinh ([n' ms] & -> & He)%list_elem_of_fmap. simpl.
  destruct (set_choose_L ms) as [m Hm]; [by apply (Hinh _ He)|].
  exists m. apply elem_of_tree_models. exists (n', ms). split; [|done].
  unfold subtree. simpl. by apply list_elem_of_filter.
Qed.

(** X19: under a weight function that gives every model a positive weight,
    as [model_weight_equal] does, the Gini selector does not fail at a node
    that has children, in a tree whose nodes all have models: no division
    by zero, and the result is one of the children. *)
Theorem gini_selector_positive_weights (tree : ModelTree) (cur : node)
    (weight : weight_function) :
  (∀ impls, (0 < weight impls)%Z) →
  inhabited tree →
  cur ∈ node_names tree →
  successors tree cur ≠ [] →
  ∃ selected, gini_selector tree cur weight = Ok selected ∧
              selected ∈ successors tree cur.
Proof.
  intros Hweight Hinh Hcur Hsucc.
  destruct (subtree_models_inhabited tree cur Hinh Hcur) as [m Hm].
  pose proof (tree_weight_positive _ (model_mapping tree) weight m Hweight Hm)
    as Htotal. fold (total_weight_at tree weight cur) in Htotal.
  destruct (gini_selector_returns tree cur weight
              (gini_value tree weight (total_weight_at tree weight cur)))
    as [selected Hok]; [done|done| |].
  - intros n Hn. apply gini_impurity_Ok; [lia|by eapply successors_node].
  - exists selected. split; [done|]. by eapply gini_selects_children.
Qed.

Lemma gini_selector_positive_weights_witness :
  ∃ selected, gini_selector three_inputs [] model_weight_equal = Ok selected ∧
              selected ∈ successors three_inputs [].
Proof.
  apply (gini_selector_positive_weights three_inputs [] model_weight_equal).
  - intros impls. reflexivity.
  - by_evaluation.
  - by_evaluation.
  - by_evaluation.
Defined.

(** ** The registered weight functions *)

Lemma model_weight_recent_lower (version_ge : string → string → bool)
    (implementations : list implementation) :
  (Z.of_nat (length implementations) ≤
     model_weight_recent version_ge implementations)%Z.
Proof.
  unfold model_weight_recent.
  induction implementations as [|i l IH]; [done|].
  rewrite fmap_cons, sum_Z_cons. simpl length.
  pose proof (implementation_weight_recent_bounds version_ge i). lia.
Qed.

